(** * Game Balance Studio backend: the stat calculation engine and its handlers

    A shallow embedding of [backend/server.py].  Python [float]s are IEEE-754
    binary64 values, modelled with the executable specification of the
    Standard Library ([SpecFloat], precision 53, [emax] 1024); Python [int]s
    are unbounded and modelled by [Z]; [dict]s with string keys are [gmap]s;
    the MongoDB collection [db.projects] is a list of project documents that
    every handler receives and returns explicitly. *)

From Stdlib Require Import ZArith SpecFloat.
From stdpp Require Import gmap strings list fin_maps.

Local Open Scope Z_scope.

(** ** Python floats *)

Module PyFloat.

Definition prec : Z := 53.
Definition emax : Z := 1024.

Abbreviation float := spec_float.

Definition fadd : float → float → float := SFadd prec emax.
Definition fmul : float → float → float := SFmul prec emax.
Definition fdiv : float → float → float := SFdiv prec emax.

Definition valid (x : float) : bool := valid_binary prec emax x.

Definition is_finite (x : float) : bool :=
  match x with
  | S754_zero _ | S754_finite _ _ _ => true
  | _ => false
  end.

Definition is_zero (x : float) : bool :=
  match x with
  | S754_zero _ => true
  | _ => false
  end.

(** The double nearest to the integer [z] (ties to even), an infinity when
    [z] is out of range. *)
Definition of_Z (z : Z) : float := binary_normalize prec emax z 0 false.

(** The double nearest to [n / d] for an integer [n] and [d > 0]: what the
    interpreter stores for a decimal literal such as [0.1] ([n = 1],
    [d = 10]) and what [strtod] returns for a decimal string. *)
Definition of_ratio (n : Z) (d : positive) : float :=
  match n with
  | Z0 => S754_zero false
  | Zpos m => fdiv (S754_finite false m 0) (S754_finite false d 0)
  | Zneg m => fdiv (S754_finite true m 0) (S754_finite false d 0)
  end.

(** [float(z)] as performed by mixed [int]/[float] arithmetic: it raises
    [OverflowError] ([None]) when [z] does not round to a finite double. *)
Definition float_of_int (z : Z) : option float :=
  match of_Z z with
  | S754_infinity _ => None
  | x => Some x
  end.

(** [n / d] rounded to the nearest integer, ties to the even one
    ([0 ≤ n], [0 < d]). *)
Definition div_half_even (n d : Z) : Z :=
  let q := n / d in
  match (2 * (n mod d)) ?= d with
  | Lt => q
  | Gt => q + 1
  | Eq => if Z.even q then q else q + 1
  end.

(** The magnitude [m * 2^e], in tenths, rounded half to even on its exact
    value. *)
Definition tenths (m : positive) (e : Z) : Z :=
  if 0 <=? e then Z.pos m * 10 * 2 ^ e
  else div_half_even (Z.pos m * 10) (2 ^ (- e)).

(** The built-in [round(x, 1)] on a float: not-a-number and the infinities
    round to themselves; a finite [x] is rounded, on its exact value and
    half to even, to one decimal place, and the decimal result is converted
    back to the nearest double.  The sign of [x] is kept, also on a zero
    result. *)
Definition round1 (x : float) : float :=
  match x with
  | S754_finite s m e =>
      match tenths m e with
      | Zpos q => fdiv (S754_finite s q 0) (S754_finite false 10 0)
      | _ => S754_zero s
      end
  | _ => x
  end.

End PyFloat.

Import PyFloat.

(** ** Exceptions and the error monad *)

Inductive exn : Type :=
| OverflowError
| HTTPException (status_code : Z) (detail : string).

Inductive outcome (A : Type) : Type :=
| Returns (a : A)
| Raises (e : exn).

Arguments Returns {A} a.
Arguments Raises {A} e.

#[global] Instance outcome_ret : MRet outcome := @Returns.

#[global] Instance outcome_bind : MBind outcome :=
  λ A B f m, match m with
             | Returns a => f a
             | Raises e => Raises e
             end.

(** [z * x] and [z + x] for an [int] [z] and a [float] [x]: the integer is
    converted first, which is where [OverflowError] comes from. *)
Definition int_mul_float (z : Z) (x : float) : outcome float :=
  match float_of_int z with
  | Some y => Returns (fmul y x)
  | None => Raises OverflowError
  end.

Definition int_add_float (z : Z) (x : float) : outcome float :=
  match float_of_int z with
  | Some y => Returns (fadd y x)
  | None => Raises OverflowError
  end.

(** ** The models (pydantic records) *)

Module AttributeModifier.
Record t : Type := mk {
  attribute : string;
  multiplier : float;
  base_bonus : float
}.
End AttributeModifier.

Module StatDefinition.
Record t : Type := mk {
  name : string;
  base_value : float;
  modifiers : list AttributeModifier.t;
  per_level_bonus : float
}.
End StatDefinition.

Module Character.
Record t : Type := mk {
  id : string;
  name : string;
  level : Z;
  base_attributes : gmap string float;
  calculated_stats : gmap string float;
  character_class : option string
}.

Definition set_level (v : Z) (c : t) : t :=
  mk (id c) (name c) v (base_attributes c) (calculated_stats c)
     (character_class c).

Definition set_calculated_stats (v : gmap string float) (c : t) : t :=
  mk (id c) (name c) (level c) (base_attributes c) v (character_class c).
End Character.

Module Enemy.
Record t : Type := mk {
  id : string;
  name : string;
  enemy_type : string;
  level : Z;
  base_stats : gmap string float;
  calculated_stats : gmap string float
}.

Definition set_level (v : Z) (e : t) : t :=
  mk (id e) (name e) (enemy_type e) v (base_stats e) (calculated_stats e).

Definition set_calculated_stats (v : gmap string float) (e : t) : t :=
  mk (id e) (name e) (enemy_type e) (level e) (base_stats e) v.
End Enemy.

Module Project.
Record t : Type := mk {
  id : string;
  name : string;
  description : string;
  attributes : list string;
  stat_definitions : list StatDefinition.t;
  characters : list Character.t;
  enemies : list Enemy.t;
  features_enabled : gmap string bool;
  created_at : Z
}.

Definition set_stat_definitions (v : list StatDefinition.t) (p : t) : t :=
  mk (id p) (name p) (description p) (attributes p) v (characters p)
     (enemies p) (features_enabled p) (created_at p).

Definition set_characters (v : list Character.t) (p : t) : t :=
  mk (id p) (name p) (description p) (attributes p) (stat_definitions p) v
     (enemies p) (features_enabled p) (created_at p).

Definition set_enemies (v : list Enemy.t) (p : t) : t :=
  mk (id p) (name p) (description p) (attributes p) (stat_definitions p)
     (characters p) v (features_enabled p) (created_at p).
End Project.

Module ProjectCreate.
Record t : Type := mk { name : string; description : string }.
End ProjectCreate.

Module CharacterCreate.
Record t : Type := mk {
  name : string;
  level : Z;
  base_attributes : gmap string float;
  character_class : option string
}.
End CharacterCreate.

Module EnemyCreate.
Record t : Type := mk {
  name : string;
  enemy_type : string;
  level : Z;
  base_stats : gmap string float
}.
End EnemyCreate.

(** [StatDefinitionCreate] has the fields of [StatDefinition]; the handlers
    build a [StatDefinition] from [stat_data.dict()], a field-for-field
    copy. *)
Module StatDefinitionCreate.
Record t : Type := mk {
  name : string;
  base_value : float;
  modifiers : list AttributeModifier.t;
  per_level_bonus : float
}.
End StatDefinitionCreate.

(** ** The stat calculator *)

(** [character.base_attributes.get(modifier.attribute, 0)]; the integer
    default [0] becomes [0.0] in the float product that consumes it. *)
Definition attribute_value (character : Character.t)
    (modifier : AttributeModifier.t) : float :=
  default (of_Z 0)
    (Character.base_attributes character
       !! AttributeModifier.attribute modifier).

(** One turn of the inner loop:
    [total += (attribute_value * modifier.multiplier) + modifier.base_bonus]. *)
Definition add_modifier (character : Character.t) (total : float)
    (modifier : AttributeModifier.t) : float :=
  fadd total
    (fadd (fmul (attribute_value character modifier)
                (AttributeModifier.multiplier modifier))
          (AttributeModifier.base_bonus modifier)).

(** The body of the outer loop up to the value handed to [round]. *)
Definition stat_total (character : Character.t)
    (stat_def : StatDefinition.t) : outcome float :=
  let total := StatDefinition.base_value stat_def in
  let total :=
    foldl (add_modifier character) total (StatDefinition.modifiers stat_def) in
  level_bonus ← int_mul_float (Character.level character - 1)
                  (StatDefinition.per_level_bonus stat_def);
  mret (fadd total level_bonus).

Fixpoint calculate_loop (character : Character.t)
    (calculated : gmap string float)
    (stat_definitions : list StatDefinition.t) : outcome (gmap string float) :=
  match stat_definitions with
  | [] => mret calculated
  | stat_def :: rest =>
      total ← stat_total character stat_def;
      calculate_loop character
        (<[StatDefinition.name stat_def := round1 total]> calculated) rest
  end.

Definition calculate_character_stats (character : Character.t)
    (stat_definitions : list StatDefinition.t) : outcome (gmap string float) :=
  calculate_loop character ∅ stat_definitions.

(** ** The document store

    [db.projects] holds the project documents in insertion order.
    [find_one] and [replace_one], called with the filter [{"id": project_id}],
    act on the first document with that id.  The driver's encoding of a
    document is not part of the model: a document is kept as the record
    itself, where the real store keeps [created_at] to the millisecond and
    refuses integers outside 64 bits. *)

Fixpoint find_one (db : list Project.t) (project_id : string)
    : option Project.t :=
  match db with
  | [] => None
  | project :: rest =>
      if decide (Project.id project = project_id) then Some project
      else find_one rest project_id
  end.

Fixpoint replace_one (db : list Project.t) (project_id : string)
    (doc : Project.t) : list Project.t :=
  match db with
  | [] => []
  | project :: rest =>
      if decide (Project.id project = project_id) then doc :: rest
      else project :: replace_one rest project_id doc
  end.

Definition insert_one (db : list Project.t) (doc : Project.t)
    : list Project.t :=
  db ++ [doc].

Definition project_not_found {A} : outcome A :=
  Raises (HTTPException 404 "Project not found").

(** ** Responses of the level routes *)

Module LevelResponse.
Record t : Type := mk { message : string; level : Z }.
End LevelResponse.

(** ** Project management *)

Definition default_stats : list StatDefinition.t :=
  [ StatDefinition.mk "health" (of_Z 100)
      [AttributeModifier.mk "constitution" (of_ratio 50 10) (of_Z 0)]
      (of_ratio 100 10);
    StatDefinition.mk "mana" (of_Z 50)
      [AttributeModifier.mk "intelligence" (of_ratio 30 10) (of_Z 0)]
      (of_ratio 50 10);
    StatDefinition.mk "power" (of_Z 20)
      [AttributeModifier.mk "strength" (of_ratio 20 10) (of_Z 0)]
      (of_ratio 20 10);
    StatDefinition.mk "initiative" (of_Z 10)
      [AttributeModifier.mk "dexterity" (of_ratio 15 10) (of_Z 0)]
      (of_ratio 10 10) ].

Definition default_attributes : list string :=
  ["strength"; "dexterity"; "constitution"; "intelligence"].

Definition default_features : gmap string bool :=
  <["attributes" := true]>
    (<["stats" := true]> (<["perks" := true]> (<["classes" := true]> ∅))).

(** [new_id] is the uuid drawn by the [id] field's default factory and [now]
    the value of [datetime.utcnow()]. *)
Definition create_project (db : list Project.t) (new_id : string) (now : Z)
    (project_data : ProjectCreate.t)
    : outcome (Project.t * list Project.t) :=
  let project :=
    Project.mk new_id (ProjectCreate.name project_data)
      (ProjectCreate.description project_data) default_attributes
      default_stats [] [] default_features now in
  mret (project, insert_one db project).

Definition get_project (db : list Project.t) (project_id : string)
    : outcome Project.t :=
  match find_one db project_id with
  | None => project_not_found
  | Some project => mret project
  end.

(** ** Character management *)

Definition create_character (db : list Project.t) (new_id : string)
    (project_id : string) (character_data : CharacterCreate.t)
    : outcome (Character.t * list Project.t) :=
  match find_one db project_id with
  | None => project_not_found
  | Some project_obj =>
      let character :=
        Character.mk new_id (CharacterCreate.name character_data)
          (CharacterCreate.level character_data)
          (CharacterCreate.base_attributes character_data) ∅
          (CharacterCreate.character_class character_data) in
      stats ← calculate_character_stats character
                (Project.stat_definitions project_obj);
      let character := Character.set_calculated_stats stats character in
      let project_obj :=
        Project.set_characters
          (Project.characters project_obj ++ [character]) project_obj in
      mret (character, replace_one db project_id project_obj)
  end.

(** The [for character in project_obj.characters] loop of
    [update_character_level]: the first character with the id is updated in
    place and the loop breaks; the flag is [character_found]. *)
Fixpoint level_up_character (character_id : string) (level : Z)
    (stat_definitions : list StatDefinition.t)
    (characters : list Character.t) : outcome (bool * list Character.t) :=
  match characters with
  | [] => mret (false, [])
  | character :: rest =>
      if decide (Character.id character = character_id) then
        let character := Character.set_level (Z.max 1 level) character in
        stats ← calculate_character_stats character stat_definitions;
        mret (true, Character.set_calculated_stats stats character :: rest)
      else
        '(found, rest') ← level_up_character character_id level
                            stat_definitions rest;
        mret (found, character :: rest')
  end.

Definition update_character_level (db : list Project.t)
    (project_id character_id : string) (level : Z)
    : outcome (LevelResponse.t * list Project.t) :=
  match find_one db project_id with
  | None => project_not_found
  | Some project_obj =>
      '(character_found, characters) ←
        level_up_character character_id level
          (Project.stat_definitions project_obj)
          (Project.characters project_obj);
      if (character_found : bool) then
        let project_obj := Project.set_characters characters project_obj in
        mret (LevelResponse.mk "Character level updated" level,
              replace_one db project_id project_obj)
      else Raises (HTTPException 404 "Character not found")
  end.

(** ** Enemy management *)

Definition create_enemy (db : list Project.t) (new_id : string)
    (project_id : string) (enemy_data : EnemyCreate.t)
    : outcome (Enemy.t * list Project.t) :=
  match find_one db project_id with
  | None => project_not_found
  | Some project_obj =>
      let enemy :=
        Enemy.mk new_id (EnemyCreate.name enemy_data)
          (EnemyCreate.enemy_type enemy_data) (EnemyCreate.level enemy_data)
          (EnemyCreate.base_stats enemy_data) ∅ in
      let enemy := Enemy.set_calculated_stats (Enemy.base_stats enemy) enemy in
      let project_obj :=
        Project.set_enemies (Project.enemies project_obj ++ [enemy])
          project_obj in
      mret (enemy, replace_one db project_id project_obj)
  end.

(** [1 + (level - 1) * 0.1] *)
Definition level_multiplier (level : Z) : outcome float :=
  x ← int_mul_float (level - 1) (of_ratio 1 10);
  int_add_float 1 x.

(** The body of the [if enemy.id == enemy_id] branch. *)
Definition scale_enemy (level : Z) (enemy : Enemy.t) : outcome Enemy.t :=
  let enemy := Enemy.set_level (Z.max 1 level) enemy in
  level_multiplier ← level_multiplier (Enemy.level enemy);
  mret (Enemy.set_calculated_stats
          ((λ value, round1 (fmul value level_multiplier))
             <$> Enemy.base_stats enemy) enemy).

Fixpoint level_up_enemy (enemy_id : string) (level : Z)
    (enemies : list Enemy.t) : outcome (bool * list Enemy.t) :=
  match enemies with
  | [] => mret (false, [])
  | enemy :: rest =>
      if decide (Enemy.id enemy = enemy_id) then
        enemy ← scale_enemy level enemy;
        mret (true, enemy :: rest)
      else
        '(found, rest') ← level_up_enemy enemy_id level rest;
        mret (found, enemy :: rest')
  end.

Definition update_enemy_level (db : list Project.t)
    (project_id enemy_id : string) (level : Z)
    : outcome (LevelResponse.t * list Project.t) :=
  match find_one db project_id with
  | None => project_not_found
  | Some project_obj =>
      '(enemy_found, enemies) ←
        level_up_enemy enemy_id level (Project.enemies project_obj);
      if (enemy_found : bool) then
        let project_obj := Project.set_enemies enemies project_obj in
        mret (LevelResponse.mk "Enemy level updated" level,
              replace_one db project_id project_obj)
      else Raises (HTTPException 404 "Enemy not found")
  end.

(** ** Stat definition management *)

Definition stat_definition_of (stat_data : StatDefinitionCreate.t)
    : StatDefinition.t :=
  StatDefinition.mk (StatDefinitionCreate.name stat_data)
    (StatDefinitionCreate.base_value stat_data)
    (StatDefinitionCreate.modifiers stat_data)
    (StatDefinitionCreate.per_level_bonus stat_data).

(** [for character in project_obj.characters:
       character.calculated_stats = calculate_character_stats(...)] *)
Fixpoint recalculate_all (stat_definitions : list StatDefinition.t)
    (characters : list Character.t) : outcome (list Character.t) :=
  match characters with
  | [] => mret []
  | character :: rest =>
      stats ← calculate_character_stats character stat_definitions;
      rest' ← recalculate_all stat_definitions rest;
      mret (Character.set_calculated_stats stats character :: rest')
  end.

Definition create_stat_definition (db : list Project.t)
    (project_id : string) (stat_data : StatDefinitionCreate.t)
    : outcome (StatDefinition.t * list Project.t) :=
  match find_one db project_id with
  | None => project_not_found
  | Some project_obj =>
      let stat_def := stat_definition_of stat_data in
      let project_obj :=
        Project.set_stat_definitions
          (Project.stat_definitions project_obj ++ [stat_def]) project_obj in
      characters ← recalculate_all (Project.stat_definitions project_obj)
                     (Project.characters project_obj);
      let project_obj := Project.set_characters characters project_obj in
      mret (stat_def, replace_one db project_id project_obj)
  end.

(** The [enumerate] loop of [update_stat_definition]: the first definition
    named [stat_name] is overwritten and the loop breaks; the flag is
    [stat_found]. *)
Fixpoint replace_stat_definition (stat_name : string)
    (stat_def : StatDefinition.t) (stat_definitions : list StatDefinition.t)
    : bool * list StatDefinition.t :=
  match stat_definitions with
  | [] => (false, [])
  | d :: rest =>
      if decide (StatDefinition.name d = stat_name) then
        (true, stat_def :: rest)
      else
        let r := replace_stat_definition stat_name stat_def rest in
        (r.1, d :: r.2)
  end.

Definition update_stat_definition (db : list Project.t)
    (project_id stat_name : string) (stat_data : StatDefinitionCreate.t)
    : outcome (string * list Project.t) :=
  match find_one db project_id with
  | None => project_not_found
  | Some project_obj =>
      let r :=
        replace_stat_definition stat_name (stat_definition_of stat_data)
          (Project.stat_definitions project_obj) in
      if r.1 then
        let project_obj := Project.set_stat_definitions r.2 project_obj in
        characters ← recalculate_all (Project.stat_definitions project_obj)
                       (Project.characters project_obj);
        let project_obj := Project.set_characters characters project_obj in
        mret ("Stat definition updated successfully",
              replace_one db project_id project_obj)
      else Raises (HTTPException 404 "Stat definition not found")
  end.

(** ** The read-only routes *)

(** [db.projects.find().to_list(1000)]: at most the first thousand
    documents. *)
Definition get_projects (db : list Project.t) : outcome (list Project.t) :=
  mret (take 1000%nat db).

Definition get_stat_definitions (db : list Project.t) (project_id : string)
    : outcome (list StatDefinition.t) :=
  match find_one db project_id with
  | None => project_not_found
  | Some project_obj => mret (Project.stat_definitions project_obj)
  end.

Module Comparison.
Record t : Type := mk {
  character_level : Z;
  enemy_level : Z;
  character_stats : gmap string float;
  enemy_stats : gmap string float
}.
End Comparison.

Module BalanceResponse.
Record t : Type := mk {
  character : Character.t;
  enemy : Enemy.t;
  comparison : Comparison.t
}.
End BalanceResponse.

(** [next((c for c in characters if c.id == character_id), None)] *)
Fixpoint next_character (character_id : string)
    (characters : list Character.t) : option Character.t :=
  match characters with
  | [] => None
  | c :: rest =>
      if decide (Character.id c = character_id) then Some c
      else next_character character_id rest
  end.

(** [next((e for e in enemies if e.id == enemy_id), None)] *)
Fixpoint next_enemy (enemy_id : string) (enemies : list Enemy.t)
    : option Enemy.t :=
  match enemies with
  | [] => None
  | e :: rest =>
      if decide (Enemy.id e = enemy_id) then Some e
      else next_enemy enemy_id rest
  end.

(** A model instance is truthy, so [not character or not enemy] holds exactly
    when one of the two searches gave [None]. *)
Definition get_balance_comparison (db : list Project.t)
    (project_id character_id enemy_id : string) : outcome BalanceResponse.t :=
  match find_one db project_id with
  | None => project_not_found
  | Some project_obj =>
      let character :=
        next_character character_id (Project.characters project_obj) in
      let enemy := next_enemy enemy_id (Project.enemies project_obj) in
      match character, enemy with
      | Some character, Some enemy =>
          mret (BalanceResponse.mk character enemy
                  (Comparison.mk (Character.level character)
                     (Enemy.level enemy)
                     (Character.calculated_stats character)
                     (Enemy.calculated_stats enemy)))
      | _, _ => Raises (HTTPException 404 "Character or enemy not found")
      end
  end.

(** ** The routes that write, as requests against the store

    One constructor per writing route of [api_router], carrying the arguments
    of the handler ([new_id] and [now] as for [create_project]).  Every
    handler writes the store in its last statement before [return], so a
    request that raises leaves the store as it was. *)

Inductive request : Type :=
| CreateProject (new_id : string) (now : Z) (project_data : ProjectCreate.t)
| CreateCharacter (new_id project_id : string)
    (character_data : CharacterCreate.t)
| UpdateCharacterLevel (project_id character_id : string) (level : Z)
| CreateEnemy (new_id project_id : string) (enemy_data : EnemyCreate.t)
| UpdateEnemyLevel (project_id enemy_id : string) (level : Z)
| CreateStatDefinition (project_id : string)
    (stat_data : StatDefinitionCreate.t)
| UpdateStatDefinition (project_id stat_name : string)
    (stat_data : StatDefinitionCreate.t).

Definition store_after {A} (db : list Project.t)
    (result : outcome (A * list Project.t)) : list Project.t :=
  match result with
  | Returns (_, db') => db'
  | Raises _ => db
  end.

Definition execute (db : list Project.t) (r : request) : list Project.t :=
  match r with
  | CreateProject new_id now project_data =>
      store_after db (create_project db new_id now project_data)
  | CreateCharacter new_id project_id character_data =>
      store_after db (create_character db new_id project_id character_data)
  | UpdateCharacterLevel project_id character_id level =>
      store_after db (update_character_level db project_id character_id level)
  | CreateEnemy new_id project_id enemy_data =>
      store_after db (create_enemy db new_id project_id enemy_data)
  | UpdateEnemyLevel project_id enemy_id level =>
      store_after db (update_enemy_level db project_id enemy_id level)
  | CreateStatDefinition project_id stat_data =>
      store_after db (create_stat_definition db project_id stat_data)
  | UpdateStatDefinition project_id stat_name stat_data =>
      store_after db
        (update_stat_definition db project_id stat_name stat_data)
  end.

(** The store after a sequence of requests, served one after the other. *)
Definition run (db : list Project.t) (requests : list request)
    : list Project.t :=
  foldl execute db requests.

(** The project a request addresses: the id in its path, or the id drawn for
    a new project. *)
Definition target (r : request) : string :=
  match r with
  | CreateProject new_id _ _ => new_id
  | CreateCharacter _ project_id _ => project_id
  | UpdateCharacterLevel project_id _ _ => project_id
  | CreateEnemy _ project_id _ => project_id
  | UpdateEnemyLevel project_id _ _ => project_id
  | CreateStatDefinition project_id _ => project_id
  | UpdateStatDefinition project_id _ _ => project_id
  end.

(** ** Invariants of a project document *)

(** Every character's [calculated_stats] is what the calculator returns now
    for it on the project's definitions. *)
Definition stats_current (project : Project.t) : Prop :=
  Forall
    (λ c, calculate_character_stats c (Project.stat_definitions project)
          = Returns (Character.calculated_stats c))
    (Project.characters project).

(** Every enemy's [calculated_stats] has exactly the keys of its
    [base_stats]. *)
Definition enemy_keys_aligned (project : Project.t) : Prop :=
  Forall
    (λ e, dom (Enemy.calculated_stats e) = dom (Enemy.base_stats e))
    (Project.enemies project).

(** ** The formula of the specification

    The stat of one definition as the specification words it: the base value,
    plus the contributions of the modifiers summed in list order, plus the
    level bonus, rounded to one decimal place.  The arithmetic is Python's,
    so the level bonus raises where the interpreter does. *)

(** [base_attributes.get(attribute, 0) * multiplier + base_bonus]: the
    attribute reads as its value in [base_attributes] when the mapping has the
    key, and as 0.0 when it has not. *)
Definition contribution (character : Character.t)
    (modifier : AttributeModifier.t) : float :=
  fadd (fmul match Character.base_attributes character
                     !! AttributeModifier.attribute modifier with
             | Some value => value
             | None => S754_zero false
             end
             (AttributeModifier.multiplier modifier))
       (AttributeModifier.base_bonus modifier).

(** [init + x1 + x2 + ...], associated to the left as a running total. *)
Definition fsum (init : float) (xs : list float) : float := foldl fadd init xs.

Definition stat_formula (character : Character.t)
    (stat_def : StatDefinition.t) : outcome float :=
  level_bonus ← int_mul_float (Character.level character - 1)
                  (StatDefinition.per_level_bonus stat_def);
  mret (round1
          (fadd (fsum (StatDefinition.base_value stat_def)
                   (contribution character
                      <$> StatDefinition.modifiers stat_def))
                level_bonus)).

(** The definition that decides the entry of [name]: the last one in list
    order carrying that name. *)
Definition last_definition (name : string)
    (stat_definitions : list StatDefinition.t) : option StatDefinition.t :=
  last (filter (λ d, StatDefinition.name d = name) stat_definitions).

Definition definition_names (stat_definitions : list StatDefinition.t)
    : gset string :=
  list_to_set (StatDefinition.name <$> stat_definitions).

(** What a recalculation does to one character: [character'] is [character]
    with its [calculated_stats] replaced by the result of the calculator on
    [stat_definitions], every other field kept. *)
Definition recalculated (stat_definitions : list StatDefinition.t)
    (character character' : Character.t) : Prop :=
  calculate_character_stats character stat_definitions
  = Returns (Character.calculated_stats character')
  ∧ Character.level character' = Character.level character
  ∧ Character.base_attributes character' = Character.base_attributes character
  ∧ Character.id character' = Character.id character
  ∧ Character.name character' = Character.name character
  ∧ Character.character_class character'
    = Character.character_class character.

(** ** Sample data

    The requests of the end-to-end scenario of [backend_test.py], and a store
    holding one project with one character and one enemy. *)

Definition gandalf_attributes : gmap string float :=
  <["strength" := of_Z 15]>
    (<["dexterity" := of_Z 12]>
       (<["constitution" := of_Z 14]> (<["intelligence" := of_Z 10]> ∅))).

Definition gandalf_data (level : Z) : CharacterCreate.t :=
  CharacterCreate.mk "Warrior Gandalf" level gandalf_attributes
    (Some "Warrior").

Definition orc_stats : gmap string float :=
  <["health" := of_Z 80]>
    (<["power" := of_Z 25]> (<["defense" := of_Z 15]> ∅)).

Definition orc_data (level : Z) : EnemyCreate.t :=
  EnemyCreate.mk "Orc Warrior" "Humanoid" level orc_stats.

Definition gandalf : Character.t :=
  Character.mk "c1" "Warrior Gandalf" 1 gandalf_attributes
    (<["health" := of_Z 170]>
       (<["mana" := of_Z 80]>
          (<["power" := of_Z 50]> (<["initiative" := of_Z 28]> ∅))))
    (Some "Warrior").

Definition orc : Enemy.t :=
  Enemy.mk "e1" "Orc Warrior" "Humanoid" 1 orc_stats orc_stats.

Definition studio_project : Project.t :=
  Project.mk "p1" "Test RPG Project" "A test project for character balancing"
    default_attributes default_stats [gandalf] [orc] default_features 0.

Definition studio_db : list Project.t := [studio_project].

(** A stat definition whose only modifier reads an attribute that no sample
    character has, with a flat bonus of 5. *)
Definition luck_modifier : AttributeModifier.t :=
  AttributeModifier.mk "luck" (of_Z 2) (of_Z 5).

Definition fortune_data : StatDefinitionCreate.t :=
  StatDefinitionCreate.mk "fortune" (of_Z 10) [luck_modifier] (of_Z 0).

Definition plain_fortune : StatDefinition.t :=
  StatDefinition.mk "fortune" (of_Z 10) [] (of_Z 0).

(** An enemy of level 1 whose base health, 80.25, has two decimal places. *)
Definition troll_stats : gmap string float :=
  <["health" := of_ratio 8025 100]> ∅.

Definition troll : Enemy.t :=
  Enemy.mk "e3" "Cave Troll" "Giant" 1 troll_stats troll_stats.

Definition troll_project : Project.t :=
  Project.mk "p2" "Caves" "" default_attributes default_stats [] [troll]
    default_features 0.

Definition troll_db : list Project.t := [troll_project].

(** A second definition named "mana", of constant value 7. *)
Definition second_mana : StatDefinition.t :=
  StatDefinition.mk "mana" (of_Z 7) [] (of_Z 0).

(** * Properties *)

(** ** Floats *)

Lemma of_Z_0 : of_Z 0 = S754_zero false.
Proof. reflexivity. Qed.

Lemma of_Z_1 : of_Z 1 = S754_finite false 4503599627370496 (-52).
Proof. reflexivity. Qed.

Lemma shr_52_exact m :
  SpecFloat.iter_pos shr_1 52
    {| shr_m := Z.pos (Pos.iter xO m 52); shr_r := false; shr_s := false |}
  = {| shr_m := Z.pos m; shr_r := false; shr_s := false |}.
Proof. reflexivity. Qed.

(** [x * 1.0] is [x] for every double [x]. *)
Lemma fmul_one v : valid v = true → fmul v (of_Z 1) = v.
Proof.
  rewrite of_Z_1. destruct v as [[]|[]| |s m e]; try done.
  unfold valid, valid_binary, bounded, canonical_mantissa.
  intros [Hc He]%andb_true_iff.
  apply Z.eqb_eq in Hc. apply Z.leb_le in He.
  unfold fmul, SFmul. rewrite xorb_false_r, Pos.mul_comm.
  change (4503599627370496 * m)%positive with (Pos.iter xO m 52).
  unfold binary_round_aux, shr_fexp.
  assert (Z.pos (digits2_pos (Pos.iter xO m 52))
          = Z.pos (digits2_pos m) + 52) as Hd.
  { cbn [Pos.iter digits2_pos]. lia. }
  cbn [Zdigits2]. rewrite Hd.
  replace (Z.pos (digits2_pos m) + 52 + (e + -52))
    with (Z.pos (digits2_pos m) + e) by lia.
  rewrite Hc. replace (e - (e + -52)) with 52 by lia.
  cbn [shr shr_record_of_loc]. rewrite shr_52_exact.
  cbn [loc_of_shr_record round_nearest_even shr_m Zdigits2].
  replace (e + -52 + 52) with e by lia. rewrite Hc, Z.sub_diag.
  cbn [shr shr_m shr_record_of_loc].
  by apply Z.leb_le in He as ->.
Qed.

(** [0.0 * x] is a zero for every finite [x]. *)
Lemma fmul_zero_finite x :
  is_finite x = true → is_zero (fmul (of_Z 0) x) = true.
Proof. by destruct x. Qed.

(** Adding a zero on the left leaves every non-zero float unchanged. *)
Lemma fadd_zero_l z x :
  is_zero z = true → is_zero x = false → fadd z x = x.
Proof. by destruct z, x. Qed.

Lemma fadd_zero_zero z x :
  is_zero z = true → is_zero x = true → is_zero (fadd z x) = true.
Proof. destruct z as [[]| | |], x as [[]| | |]; done. Qed.

Lemma level_multiplier_1 : level_multiplier 1 = Returns (of_Z 1).
Proof. reflexivity. Qed.

(** Integers below [2^53] in magnitude convert to a float: no
    [OverflowError] for any level a user would ask for. *)

Ltac fexp_is v :=
  match goal with
  | |- context [fexp ?a ?b ?c] =>
      replace (fexp a b c) with v by (unfold fexp, emin, prec, emax; lia)
  end.

Lemma digits2_pos_iter_xO p n :
  Z.pos (digits2_pos (Pos.iter xO p n)) = Z.pos (digits2_pos p) + Z.pos n.
Proof.
  induction n as [|n IH] using Pos.peano_ind.
  - cbn. lia.
  - rewrite Pos.iter_succ. cbn [digits2_pos]. lia.
Qed.

Lemma digits2_pos_small p : Z.pos p < 2 ^ 53 → Z.pos (digits2_pos p) ≤ 53.
Proof.
  intros Hp.
  assert (∀ q, digits2_pos q = Pos.size q) as ->
    by (intros q; induction q; cbn; congruence).
  destruct (Z.le_gt_cases (Z.pos (Pos.size p)) 53) as [|Hgt]; [done|].
  assert (2 ^ 54 ≤ 2 ^ Z.pos (Pos.size p)) by (apply Z.pow_le_mono_r; lia).
  assert (Z.pos (2 ^ Pos.size p) = 2 ^ Z.pos (Pos.size p)) as Hpow
    by apply Pos2Z.inj_pow.
  assert (Z.pos (2 ^ Pos.size p) ≤ Z.pos p~0)
    by (apply Pos2Z.pos_le_pos, Pos.size_le).
  lia.
Qed.

Lemma binary_round_small s p :
  Z.pos p < 2 ^ 53 → ∃ m e, binary_round prec emax s p 0 = S754_finite s m e.
Proof.
  intros Hp. pose proof (digits2_pos_small p Hp) as Hd.
  unfold binary_round. fexp_is (Z.pos (digits2_pos p) - 53).
  unfold shl_align, binary_round_aux, shr_fexp.
  destruct (Z.pos (digits2_pos p) - 53 - 0) as [|d|d] eqn:Ed; try lia.
  - cbn [Zdigits2]. fexp_is 0. rewrite Z.sub_diag.
    cbn [shr shr_record_of_loc loc_of_shr_record shr_m round_nearest_even
         Zdigits2].
    fexp_is 0. cbn. eauto.
  - cbn [Zdigits2]. rewrite digits2_pos_iter_xO.
    fexp_is (Z.pos (digits2_pos p) - 53). rewrite Z.sub_diag.
    cbn [shr shr_record_of_loc loc_of_shr_record shr_m round_nearest_even
         Zdigits2].
    rewrite digits2_pos_iter_xO.
    fexp_is (Z.pos (digits2_pos p) - 53). rewrite Z.sub_diag.
    cbn [shr shr_m].
    assert ((Z.pos (digits2_pos p) - 53 <=? emax - prec) = true) as ->
      by (apply Z.leb_le; unfold emax, prec; lia).
    eauto.
Qed.

Lemma float_of_int_small z : - 2 ^ 53 < z < 2 ^ 53 → is_Some (float_of_int z).
Proof.
  intros Hz. unfold float_of_int, of_Z, binary_normalize.
  destruct z as [|p|p].
  - eauto.
  - destruct (binary_round_small false p) as (m & e & ->); [lia|eauto].
  - destruct (binary_round_small true p) as (m & e & ->); [lia|eauto].
Qed.


(** ** The error monad *)

Lemma bind_Returns {A B} (f : A → outcome B) (a : A) :
  (Returns a ≫= f) = f a.
Proof. reflexivity. Qed.

Lemma bind_Raises {A B} (f : A → outcome B) (e : exn) :
  (Raises e ≫= f) = Raises e.
Proof. reflexivity. Qed.

Lemma bind_Returns_inv {A B} (f : A → outcome B) (m : outcome A) (b : B) :
  (m ≫= f) = Returns b → ∃ a, m = Returns a ∧ f a = Returns b.
Proof. destruct m as [a|e]; [eauto | discriminate]. Qed.

Lemma bind_Raises_inv {A B} (f : A → outcome B) (m : outcome A) (e : exn) :
  (m ≫= f) = Raises e → m = Raises e ∨ ∃ a, m = Returns a ∧ f a = Raises e.
Proof. destruct m as [a|e']; [eauto | intros [= ->]; by left]. Qed.

(** ** The stat calculator *)

Lemma foldl_add_modifier character modifiers total :
  foldl (add_modifier character) total modifiers
  = fsum total (contribution character <$> modifiers).
Proof.
  revert total.
  induction modifiers as [|modifier modifiers IH]; intros total; [done|].
  cbn. rewrite IH. unfold add_modifier, attribute_value, contribution.
  by destruct (Character.base_attributes character
                 !! AttributeModifier.attribute modifier).
Qed.

Lemma stat_formula_total character stat_def :
  stat_formula character stat_def
  = (total ← stat_total character stat_def; mret (round1 total)).
Proof.
  unfold stat_formula, stat_total. rewrite foldl_add_modifier.
  by destruct (int_mul_float _ _).
Qed.

Lemma stat_total_Returns character stat_def total :
  stat_total character stat_def = Returns total →
  stat_formula character stat_def = Returns (round1 total).
Proof. intros H. by rewrite stat_formula_total, H. Qed.

Lemma stat_total_Raises character stat_def e :
  stat_total character stat_def = Raises e →
  stat_formula character stat_def = Raises e.
Proof. intros H. by rewrite stat_formula_total, H. Qed.

Lemma last_definition_nil name : last_definition name [] = None.
Proof. reflexivity. Qed.

Lemma last_definition_cons name d stat_definitions :
  last_definition name (d :: stat_definitions)
  = match last_definition name stat_definitions with
    | Some d' => Some d'
    | None => if decide (StatDefinition.name d = name) then Some d else None
    end.
Proof.
  unfold last_definition. rewrite filter_cons.
  destruct (decide (StatDefinition.name d = name)); [|by destruct (last _)].
  destruct (filter _ stat_definitions) as [|d' l] eqn:E; [done|].
  change (last (d :: d' :: l)) with (last (d' :: l)).
  destruct (last (d' :: l)) eqn:E'; [done|].
  by apply last_None in E'.
Qed.

Lemma last_definition_Some name stat_definitions d :
  last_definition name stat_definitions = Some d →
  d ∈ stat_definitions ∧ StatDefinition.name d = name.
Proof.
  unfold last_definition. intros H.
  apply last_Some_elem_of, list_elem_of_filter in H. naive_solver.
Qed.

Lemma last_definition_None name stat_definitions :
  last_definition name stat_definitions = None ↔
  name ∉ definition_names stat_definitions.
Proof.
  unfold last_definition, definition_names.
  rewrite last_None, elem_of_list_to_set, list_elem_of_fmap. split.
  - intros H (d & -> & Hd).
    assert (d ∈ filter (λ d', StatDefinition.name d' = StatDefinition.name d)
                  stat_definitions) as Hin
      by by apply list_elem_of_filter.
    rewrite H in Hin. by apply not_elem_of_nil in Hin.
  - intros H. destruct (filter _ _) as [|d l] eqn:E; [done|].
    assert (d ∈ filter (λ d', StatDefinition.name d' = name) stat_definitions)
      as Hin by (rewrite E; left).
    apply list_elem_of_filter in Hin. naive_solver.
Qed.

Lemma int_mul_float_Raises z x e :
  int_mul_float z x = Raises e → e = OverflowError ∧ float_of_int z = None.
Proof.
  unfold int_mul_float. destruct (float_of_int z); [discriminate|].
  by intros [= <-].
Qed.

Lemma stat_formula_Raises character stat_def e :
  stat_formula character stat_def = Raises e →
  e = OverflowError ∧ float_of_int (Character.level character - 1) = None.
Proof.
  unfold stat_formula. intros H.
  apply bind_Raises_inv in H as [H|(x & _ & H)]; [|discriminate].
  by apply int_mul_float_Raises in H.
Qed.

Lemma stat_formula_Returns character stat_def y :
  float_of_int (Character.level character - 1) = Some y →
  ∃ v, stat_formula character stat_def = Returns v.
Proof.
  intros H. unfold stat_formula, int_mul_float. rewrite H. cbn. eauto.
Qed.

(** The running dictionary of the outer loop: an entry is decided by the last
    definition carrying its name, and is the one of [calculated] when no
    definition carries it. *)
Lemma calculate_loop_Returns character stat_definitions :
  ∀ calculated result,
    calculate_loop character calculated stat_definitions = Returns result →
    ∀ name,
      Returns <$> result !! name
      = match last_definition name stat_definitions with
        | Some d => Some (stat_formula character d)
        | None => Returns <$> calculated !! name
        end.
Proof.
  induction stat_definitions as [|d ds IH]; intros calculated result H name.
  - cbn in H. by injection H as ->.
  - cbn [calculate_loop] in H.
    apply bind_Returns_inv in H as (total & Htotal & H).
    rewrite (IH _ _ H name), last_definition_cons.
    destruct (last_definition name ds) as [d'|]; [done|].
    destruct (decide (StatDefinition.name d = name)) as [<-|Hne].
    + rewrite lookup_insert_eq. cbn.
      by rewrite (stat_total_Returns _ _ _ Htotal).
    + by rewrite lookup_insert_ne.
Qed.

Lemma calculate_loop_Raises character stat_definitions :
  ∀ calculated e,
    calculate_loop character calculated stat_definitions = Raises e →
    ∃ d, d ∈ stat_definitions ∧ stat_formula character d = Raises e.
Proof.
  induction stat_definitions as [|d ds IH]; intros calculated e H.
  - discriminate.
  - cbn [calculate_loop] in H.
    apply bind_Raises_inv in H as [H|(total & _ & H)].
    + exists d. split; [left|]. by apply stat_total_Raises.
    + destruct (IH _ _ H) as (d' & Hd' & He). exists d'. split; [by right|done].
Qed.

Lemma calculate_loop_dom character stat_definitions :
  ∀ calculated result,
    calculate_loop character calculated stat_definitions = Returns result →
    dom result = dom calculated ∪ definition_names stat_definitions.
Proof.
  induction stat_definitions as [|d ds IH]; intros calculated result H.
  - cbn in H. injection H as ->. unfold definition_names. set_solver.
  - cbn [calculate_loop] in H.
    apply bind_Returns_inv in H as (total & _ & H).
    rewrite (IH _ _ H), dom_insert_L. unfold definition_names. set_solver.
Qed.

(** The calculator reads [level] and [base_attributes] only. *)
Lemma calculate_character_stats_ignores_previous character previous defs :
  calculate_character_stats
    (Character.set_calculated_stats previous character) defs
  = calculate_character_stats character defs.
Proof.
  unfold calculate_character_stats. generalize (∅ : gmap string float).
  induction defs as [|d ds IH]; intros calculated; [done|].
  cbn [calculate_loop].
  change (stat_total (Character.set_calculated_stats previous character) d)
    with (stat_total character d).
  destruct (stat_total character d) as [total|e]; [|done]. apply IH.
Qed.

Lemma calculate_character_stats_total character defs y :
  float_of_int (Character.level character - 1) = Some y →
  ∃ calculated, calculate_character_stats character defs = Returns calculated.
Proof.
  intros Hy. destruct (calculate_character_stats character defs) eqn:E; [eauto|].
  apply calculate_loop_Raises in E as (d & _ & E).
  apply stat_formula_Raises in E as [_ E]. congruence.
Qed.

Lemma calculate_character_stats_returns character defs :
  - 2 ^ 53 < Character.level character - 1 < 2 ^ 53 →
  ∃ calculated, calculate_character_stats character defs = Returns calculated.
Proof.
  intros [y Hy]%float_of_int_small.
  by eapply calculate_character_stats_total.
Qed.


(** C3: the key set of the mapping returned by the character stat calculator
    is exactly the set of names of the definitions in the list it is given; of
    two definitions with one name the later decides the value; and the result
    does not depend on the character's previous [calculated_stats], so no key
    of it survives unless it names a current definition.  The call returns
    unless the level cannot be converted to a float. *)
Theorem calculate_character_stats_keys
    (character : Character.t) (stat_definitions : list StatDefinition.t) :
  match calculate_character_stats character stat_definitions with
  | Returns calculated =>
      dom calculated = definition_names stat_definitions
      ∧ (∀ before d after,
           stat_definitions = before ++ d :: after →
           StatDefinition.name d ∉ definition_names after →
           Returns <$> calculated !! StatDefinition.name d
           = Some (stat_formula character d))
      ∧ (∀ previous,
           calculate_character_stats
             (Character.set_calculated_stats previous character)
             stat_definitions
           = Returns calculated)
  | Raises e =>
      e = OverflowError
      ∧ stat_definitions ≠ []
      ∧ float_of_int (Character.level character - 1) = None
  end.
Proof.
  destruct (calculate_character_stats character stat_definitions)
    as [calculated|e] eqn:E.
  - split; [|split].
    + rewrite (calculate_loop_dom _ _ _ _ E). set_solver.
    + intros before d after -> Hafter.
      rewrite (calculate_loop_Returns _ _ _ _ E).
      assert (last_definition (StatDefinition.name d) (before ++ d :: after)
              = Some d) as ->; [|done].
      clear E. induction before as [|b before IH]; cbn [app].
      * rewrite last_definition_cons.
        apply last_definition_None in Hafter as ->. by rewrite decide_True.
      * by rewrite last_definition_cons, IH.
    + intros previous. by rewrite calculate_character_stats_ignores_previous.
  - apply calculate_loop_Raises in E as (d & Hd & E).
    apply stat_formula_Raises in E as [-> E].
    split; [done|]. split; [|done]. intros ->. by apply not_elem_of_nil in Hd.
Qed.

(** C3, at the sample data: gandalf against the seeded definitions followed
    by a second "mana" definition, which decides the entry. *)
Lemma calculate_character_stats_keys_witness :
  ∃ calculated,
    calculate_character_stats gandalf (default_stats ++ [second_mana])
    = Returns calculated
    ∧ dom calculated = definition_names (default_stats ++ [second_mana])
    ∧ Returns <$> calculated !! "mana"
      = Some (stat_formula gandalf second_mana)
    ∧ calculated !! "mana" = Some (of_Z 7).
Proof.
  pose proof (calculate_character_stats_keys gandalf
                (default_stats ++ [second_mana])) as H.
  destruct (calculate_character_stats gandalf (default_stats ++ [second_mana]))
    as [calculated|e] eqn:E.
  - exists calculated. destruct H as (Hdom & Hlast & _).
    split; [reflexivity|]. split; [exact Hdom|].
    assert (Returns <$> calculated !! "mana"
            = Some (stat_formula gandalf second_mana)) as Hmana.
    { apply (Hlast default_stats second_mana []); [reflexivity|].
      unfold definition_names. cbn. apply not_elem_of_empty. }
    split; [exact Hmana|].
    destruct (calculated !! "mana") as [v|]; [|discriminate Hmana].
    vm_compute in Hmana. injection Hmana as ->. reflexivity.
  - destruct H as (_ & _ & H). vm_compute in H. discriminate H.
Defined.

(** ** The document store *)

Lemma find_one_id db project_id project :
  find_one db project_id = Some project → Project.id project = project_id.
Proof.
  induction db as [|p db IH]; [discriminate|]. cbn.
  destruct (decide (Project.id p = project_id)); [|done]. congruence.
Qed.

Lemma find_one_replace_one db project_id project doc :
  find_one db project_id = Some project →
  Project.id doc = project_id →
  find_one (replace_one db project_id doc) project_id = Some doc.
Proof.
  intros Hfind Hid. induction db as [|p db IH]; [discriminate|].
  cbn in *. destruct (decide (Project.id p = project_id)); cbn.
  - by rewrite decide_True.
  - rewrite decide_False by done. auto.
Qed.

(** ** The level loops *)

Lemma level_up_enemy_found enemy_id level before enemy after :
  Forall (λ e, Enemy.id e ≠ enemy_id) before →
  Enemy.id enemy = enemy_id →
  level_up_enemy enemy_id level (before ++ enemy :: after)
  = (enemy' ← scale_enemy level enemy;
     mret (true, before ++ enemy' :: after)).
Proof.
  intros Hbefore Hid. induction Hbefore as [|e before He _ IH]; cbn.
  - by rewrite decide_True.
  - rewrite decide_False by done. rewrite IH.
    by destruct (scale_enemy level enemy).
Qed.

Lemma level_up_enemy_inv enemy_id level enemies :
  ∀ enemies',
    level_up_enemy enemy_id level enemies = Returns (true, enemies') →
    ∃ before enemy after enemy',
      enemies = before ++ enemy :: after
      ∧ Forall (λ e, Enemy.id e ≠ enemy_id) before
      ∧ Enemy.id enemy = enemy_id
      ∧ scale_enemy level enemy = Returns enemy'
      ∧ enemies' = before ++ enemy' :: after.
Proof.
  induction enemies as [|e enemies IH]; intros enemies' H; [discriminate|].
  cbn in H. destruct (decide (Enemy.id e = enemy_id)) as [Hid|Hid].
  - apply bind_Returns_inv in H as (e' & He' & [= <-]).
    by exists [], e, enemies, e'.
  - apply bind_Returns_inv in H as ([found rest'] & Hrest & [= -> <-]).
    destruct (IH _ Hrest) as (before & x & after & x' & -> & ? & ? & ? & ->).
    exists (e :: before), x, after, x'. split_and!; auto.
Qed.

Lemma level_up_character_found character_id level defs before character after :
  Forall (λ c, Character.id c ≠ character_id) before →
  Character.id character = character_id →
  level_up_character character_id level defs (before ++ character :: after)
  = (stats ← calculate_character_stats
               (Character.set_level (Z.max 1 level) character) defs;
     mret (true,
           before
             ++ Character.set_calculated_stats stats
                  (Character.set_level (Z.max 1 level) character)
             :: after)).
Proof.
  intros Hbefore Hid. induction Hbefore as [|c before Hc _ IH]; cbn.
  - by rewrite decide_True.
  - rewrite decide_False by done. rewrite IH.
    by destruct (calculate_character_stats _ defs).
Qed.

Lemma level_up_character_inv character_id level defs characters :
  ∀ characters',
    level_up_character character_id level defs characters
    = Returns (true, characters') →
    ∃ before character after stats,
      characters = before ++ character :: after
      ∧ Forall (λ c, Character.id c ≠ character_id) before
      ∧ Character.id character = character_id
      ∧ calculate_character_stats
          (Character.set_level (Z.max 1 level) character) defs
        = Returns stats
      ∧ characters'
        = before
            ++ Character.set_calculated_stats stats
                 (Character.set_level (Z.max 1 level) character)
            :: after.
Proof.
  induction characters as [|c characters IH]; intros characters' H;
    [discriminate|].
  cbn in H. destruct (decide (Character.id c = character_id)) as [Hid|Hid].
  - apply bind_Returns_inv in H as (stats & Hstats & [= <-]).
    by exists [], c, characters, stats.
  - apply bind_Returns_inv in H as ([found rest'] & Hrest & [= -> <-]).
    destruct (IH _ Hrest) as (before & x & after & stats & -> & ? & ? & ? & ->).
    exists (c :: before), x, after, stats. split_and!; auto.
Qed.

(** The multiplier is computed without error for every level a user would
    ask for. *)
Lemma level_multiplier_returns level :
  - 2 ^ 53 < level - 1 < 2 ^ 53 →
  ∃ multiplier, level_multiplier level = Returns multiplier.
Proof.
  intros [y Hy]%float_of_int_small.
  unfold level_multiplier, int_mul_float. rewrite Hy. cbn. eauto.
Qed.



Lemma create_enemy_found db new_id project_id enemy_data project :
  find_one db project_id = Some project →
  create_enemy db new_id project_id enemy_data
  = let enemy :=
      Enemy.mk new_id (EnemyCreate.name enemy_data)
        (EnemyCreate.enemy_type enemy_data) (EnemyCreate.level enemy_data)
        (EnemyCreate.base_stats enemy_data)
        (EnemyCreate.base_stats enemy_data) in
    Returns
      (enemy,
       replace_one db project_id
         (Project.set_enemies (Project.enemies project ++ [enemy]) project)).
Proof. intros Hfind. unfold create_enemy. by rewrite Hfind. Qed.



(** C10: for every successful character or enemy level update with requested
    value [N], the [level] field of the response is the raw [N], while the
    level stored for the updated character or enemy is [max(1, N)]; so for
    [N ≤ 0] the response reports [N] and the stored level is 1. *)
Theorem level_update_response_reports_request
    (db db' : list Project.t) (project_id entity_id : string) (N : Z)
    (response : LevelResponse.t) :
  (update_character_level db project_id entity_id N = Returns (response, db')
   → LevelResponse.level response = N
     ∧ ∃ project' before character' after,
         find_one db' project_id = Some project'
         ∧ Project.characters project' = before ++ character' :: after
         ∧ Forall (λ c, Character.id c ≠ entity_id) before
         ∧ Character.id character' = entity_id
         ∧ Character.level character' = Z.max 1 N
         ∧ (N ≤ 0 → Character.level character' = 1))
  ∧ (update_enemy_level db project_id entity_id N = Returns (response, db')
     → LevelResponse.level response = N
       ∧ ∃ project' before enemy' after,
           find_one db' project_id = Some project'
           ∧ Project.enemies project' = before ++ enemy' :: after
           ∧ Forall (λ e, Enemy.id e ≠ entity_id) before
           ∧ Enemy.id enemy' = entity_id
           ∧ Enemy.level enemy' = Z.max 1 N
           ∧ (N ≤ 0 → Enemy.level enemy' = 1)).
Proof.
  split.
  - unfold update_character_level.
    destruct (find_one db project_id) as [project|] eqn:Hfind; [|discriminate].
    intros H. apply bind_Returns_inv in H as ([found characters'] & Hloop & H).
    destruct found; [|discriminate]. injection H as <- <-.
    split; [done|].
    apply level_up_character_inv in Hloop
      as (before & c & after & stats & _ & Hbefore & Hid & _ & ->).
    eexists _, before, _, after. split.
    { apply (find_one_replace_one _ _ _ _ Hfind), (find_one_id _ _ _ Hfind). }
    split_and!; try done. cbn. lia.
  - unfold update_enemy_level.
    destruct (find_one db project_id) as [project|] eqn:Hfind; [|discriminate].
    intros H. apply bind_Returns_inv in H as ([found enemies'] & Hloop & H).
    destruct found; [|discriminate]. injection H as <- <-.
    split; [done|].
    apply level_up_enemy_inv in Hloop
      as (before & e & after & e' & _ & Hbefore & Hid & Hscale & ->).
    unfold scale_enemy in Hscale.
    apply bind_Returns_inv in Hscale as (multiplier & _ & [= <-]).
    eexists _, before, _, after. split.
    { apply (find_one_replace_one _ _ _ _ Hfind), (find_one_id _ _ _ Hfind). }
    split_and!; try done. cbn. lia.
Qed.

(** C10, at the sample store: the character update requested with level -2
    answers -2 and stores level 1. *)
Lemma level_update_response_reports_request_witness :
  ∃ response db',
    update_character_level studio_db "p1" "c1" (-2) = Returns (response, db')
    ∧ LevelResponse.level response = -2
    ∧ ∃ project' before character' after,
        find_one db' "p1" = Some project'
        ∧ Project.characters project' = before ++ character' :: after
        ∧ Forall (λ c, Character.id c ≠ "c1") before
        ∧ Character.id character' = "c1"
        ∧ Character.level character' = Z.max 1 (-2)
        ∧ (-2 ≤ 0 → Character.level character' = 1).
Proof.
  eexists _, _. split; [vm_compute; reflexivity|].
  eapply (proj1 (level_update_response_reports_request
                   studio_db _ "p1" "c1" (-2) _)).
  vm_compute; reflexivity.
Defined.

(** C5 (the creation routes): a character and an enemy requested with level 0
    are returned and stored with level 0, and the character's health is 160.0,
    the level bonus being [(0 - 1) * 10]; the creation routes copy the level
    of the request, where the two level-update routes store [max(1, level)]. *)
Theorem create_stores_requested_level :
  (∃ character db' project',
     create_character studio_db "c2" "p1" (gandalf_data 0)
     = Returns (character, db')
     ∧ Character.level character = 0
     ∧ Character.calculated_stats character !! "health" = Some (of_Z 160)
     ∧ find_one db' "p1" = Some project'
     ∧ Project.characters project' = [gandalf; character])
  ∧ (∃ enemy db' project',
       create_enemy studio_db "e2" "p1" (orc_data 0) = Returns (enemy, db')
       ∧ Enemy.level enemy = 0
       ∧ find_one db' "p1" = Some project'
       ∧ Project.enemies project' = [orc; enemy]).
Proof.
  split; eexists _, _, _; (split; [vm_compute; reflexivity|]);
    repeat split; reflexivity.
Qed.

(** ** Editing the stat definitions *)

Lemma recalculate_all_Returns stat_definitions characters :
  ∀ characters',
    recalculate_all stat_definitions characters = Returns characters' →
    Forall2 (recalculated stat_definitions) characters characters'.
Proof.
  induction characters as [|c characters IH]; intros characters' H.
  - injection H as <-. constructor.
  - cbn [recalculate_all] in H.
    apply bind_Returns_inv in H as (stats & Hstats & H).
    apply bind_Returns_inv in H as (rest' & Hrest & [= <-]).
    constructor; [|by apply IH]. by repeat split.
Qed.

Lemma recalculate_all_Raises stat_definitions characters e :
  recalculate_all stat_definitions characters = Raises e →
  ∃ c, c ∈ characters ∧ calculate_character_stats c stat_definitions = Raises e.
Proof.
  induction characters as [|c characters IH]; [discriminate|].
  cbn [recalculate_all]. intros H.
  apply bind_Raises_inv in H as [H|(stats & _ & H)].
  - exists c. split; [left|done].
  - apply bind_Raises_inv in H as [H|(rest' & _ & H)]; [|discriminate].
    destruct (IH H) as (c' & Hc' & He). exists c'. split; [by right|done].
Qed.

Lemma replace_stat_definition_found stat_name stat_def stat_definitions :
  ∀ stat_definitions',
    replace_stat_definition stat_name stat_def stat_definitions
    = (true, stat_definitions') →
    ∃ before old after,
      stat_definitions = before ++ old :: after
      ∧ Forall (λ d, StatDefinition.name d ≠ stat_name) before
      ∧ StatDefinition.name old = stat_name
      ∧ stat_definitions' = before ++ stat_def :: after.
Proof.
  induction stat_definitions as [|d ds IH]; intros ds' H; [discriminate|].
  cbn in H. destruct (decide (StatDefinition.name d = stat_name)) as [Hn|Hn].
  - injection H as <-. by exists [], d, ds.
  - destruct (replace_stat_definition stat_name stat_def ds) as [found r] eqn:E.
    cbn in H. injection H as -> <-.
    destruct (IH _ eq_refl) as (before & old & after & -> & ? & ? & ->).
    exists (d :: before), old, after. split_and!; auto.
Qed.

Lemma replace_stat_definition_missing stat_name stat_def stat_definitions :
  ∀ stat_definitions',
    replace_stat_definition stat_name stat_def stat_definitions
    = (false, stat_definitions') →
    Forall (λ d, StatDefinition.name d ≠ stat_name) stat_definitions.
Proof.
  induction stat_definitions as [|d ds IH]; intros ds' H; [constructor|].
  cbn in H. destruct (decide (StatDefinition.name d = stat_name)) as [Hn|Hn];
    [discriminate|].
  destruct (replace_stat_definition stat_name stat_def ds) as [found r] eqn:E.
  cbn in H. injection H as -> <-. constructor; [done|]. by eapply IH.
Qed.



(** ** The seeded project *)

(** C4: creating a project seeds exactly four stat definitions: health (base
    100, constitution x 5, 10 per level), mana (base 50, intelligence x 3, 5
    per level), power (base 20, strength x 2, 2 per level) and initiative
    (base 10, dexterity x 1.5, 1 per level).  In such a project a character
    created at level 1 with strength 15, dexterity 12, constitution 14 and
    intelligence 10 has health 170.0; once its level is updated to 5 it has
    health 210.0 and power 58.0. *)
Theorem seeded_project_scenario :
  (∀ db new_id now project_data,
     ∃ project,
       create_project db new_id now project_data
       = Returns (project, db ++ [project])
       ∧ Project.stat_definitions project
         = [ StatDefinition.mk "health" (of_Z 100)
               [AttributeModifier.mk "constitution" (of_Z 5) (of_Z 0)]
               (of_Z 10);
             StatDefinition.mk "mana" (of_Z 50)
               [AttributeModifier.mk "intelligence" (of_Z 3) (of_Z 0)]
               (of_Z 5);
             StatDefinition.mk "power" (of_Z 20)
               [AttributeModifier.mk "strength" (of_Z 2) (of_Z 0)]
               (of_Z 2);
             StatDefinition.mk "initiative" (of_Z 10)
               [AttributeModifier.mk "dexterity" (of_ratio 15 10) (of_Z 0)]
               (of_Z 1) ])
  ∧ ∃ project db1 character db2 response db3 project3 character3,
      create_project [] "p1" 0 (ProjectCreate.mk "Test RPG Project" "")
      = Returns (project, db1)
      ∧ create_character db1 "c1" "p1" (gandalf_data 1)
        = Returns (character, db2)
      ∧ Character.level character = 1
      ∧ Character.calculated_stats character !! "health" = Some (of_Z 170)
      ∧ update_character_level db2 "p1" "c1" 5 = Returns (response, db3)
      ∧ find_one db3 "p1" = Some project3
      ∧ Project.characters project3 = [character3]
      ∧ Character.level character3 = 5
      ∧ Character.calculated_stats character3 !! "health" = Some (of_Z 210)
      ∧ Character.calculated_stats character3 !! "power" = Some (of_Z 58).
Proof.
  split.
  - intros db new_id now project_data. eexists. split; reflexivity.
  - eexists _, _, _, _, _, _, _, _.
    split; [reflexivity|]. split; [vm_compute; reflexivity|].
    split; [reflexivity|]. split; [reflexivity|].
    split; [vm_compute; reflexivity|].
    repeat split; reflexivity.
Qed.

(** ** Missing attributes *)

(** C7, as stated, fails: gandalf has no "luck" attribute, yet the modifier
    reading it, with a flat bonus of 5, raises the stat from 10.0 to 15.0. *)
Lemma missing_attribute_adds_base_bonus :
  Character.base_attributes gandalf !! AttributeModifier.attribute luck_modifier
  = None
  ∧ add_modifier gandalf (of_Z 10) luck_modifier = of_Z 15
  ∧ (∃ calculated,
       calculate_character_stats gandalf [stat_definition_of fortune_data]
       = Returns calculated
       ∧ calculated !! "fortune" = Some (of_Z 15))
  ∧ (∃ calculated,
       calculate_character_stats gandalf [plain_fortune] = Returns calculated
       ∧ calculated !! "fortune" = Some (of_Z 10)).
Proof.
  split; [reflexivity|]. split; [reflexivity|].
  split; eexists; (split; [vm_compute; reflexivity | reflexivity]).
Qed.

(** C7 (amended): a modifier whose attribute is absent from the character's
    [base_attributes] raises no error, the attribute reading as 0, and adds
    [0 * multiplier + base_bonus] to the running total: for a finite
    multiplier that is exactly [base_bonus] when the bonus is not zero, and a
    zero when the bonus is zero.  The calculation as a whole returns whenever
    the level converts to a float, whatever attributes are missing. *)
Theorem missing_attribute_contribution
    (character : Character.t) (modifier : AttributeModifier.t) :
  Character.base_attributes character
    !! AttributeModifier.attribute modifier = None →
  (∀ total,
     add_modifier character total modifier
     = fadd total
         (fadd (fmul (of_Z 0) (AttributeModifier.multiplier modifier))
               (AttributeModifier.base_bonus modifier)))
  ∧ (is_finite (AttributeModifier.multiplier modifier) = true →
     is_zero (AttributeModifier.base_bonus modifier) = false →
     ∀ total,
       add_modifier character total modifier
       = fadd total (AttributeModifier.base_bonus modifier))
  ∧ (is_finite (AttributeModifier.multiplier modifier) = true →
     is_zero (AttributeModifier.base_bonus modifier) = true →
     ∀ total,
       ∃ zero,
         is_zero zero = true
         ∧ add_modifier character total modifier = fadd total zero)
  ∧ (∀ stat_definitions y,
       float_of_int (Character.level character - 1) = Some y →
       ∃ calculated,
         calculate_character_stats character stat_definitions
         = Returns calculated).
Proof.
  intros Hmissing.
  assert (∀ total,
            add_modifier character total modifier
            = fadd total
                (fadd (fmul (of_Z 0) (AttributeModifier.multiplier modifier))
                      (AttributeModifier.base_bonus modifier))) as Hadd.
  { intros total. unfold add_modifier, attribute_value. by rewrite Hmissing. }
  split; [done|]. split; [|split].
  - intros Hfinite Hbonus total.
    by rewrite Hadd, (fadd_zero_l _ _ (fmul_zero_finite _ Hfinite) Hbonus).
  - intros Hfinite Hbonus total. eexists. split; [|apply Hadd].
    by apply fadd_zero_zero; [apply fmul_zero_finite|].
  - intros stat_definitions y. apply calculate_character_stats_total.
Qed.

(** C7 (amended), at the sample data: gandalf and the "luck" modifier. *)
Lemma missing_attribute_contribution_witness :
  Character.base_attributes gandalf !! AttributeModifier.attribute luck_modifier
  = None
  ∧ ∀ total,
      add_modifier gandalf total luck_modifier
      = fadd total (AttributeModifier.base_bonus luck_modifier).
Proof.
  split; [reflexivity|].
  apply (proj1 (proj2 (missing_attribute_contribution gandalf luck_modifier
                         eq_refl))); reflexivity.
Defined.

(** ** Enemies at level 1 *)

(** C6, as stated, fails: the troll is at level 1 with base health 80.25; a
    level update to 1 leaves it at level 1 and stores the calculated health
    80.2. *)
Lemma level_one_update_rounds_base_stats :
  ∃ response db' project' enemy',
    update_enemy_level troll_db "p2" "e3" 1 = Returns (response, db')
    ∧ find_one db' "p2" = Some project'
    ∧ Project.enemies project' = [enemy']
    ∧ Enemy.level enemy' = 1
    ∧ Enemy.base_stats enemy' !! "health" = Some (of_ratio 8025 100)
    ∧ Enemy.calculated_stats enemy' !! "health" = Some (of_ratio 802 10)
    ∧ Enemy.calculated_stats enemy' ≠ Enemy.base_stats enemy'.
Proof.
  eexists _, _, _, _. split; [vm_compute; reflexivity|].
  split; [reflexivity|]. split; [reflexivity|]. split; [reflexivity|].
  split; [reflexivity|]. split; [vm_compute; reflexivity|].
  intros H. apply (f_equal (λ m : gmap string float, m !! "health")) in H.
  vm_compute in H. discriminate H.
Qed.

(** C6 (amended): for an enemy of level 1, immediately after creation
    [calculated_stats] equals [base_stats] exactly; after a level update that
    leaves the level at 1 (a requested level of at most 1) the multiplier is
    exactly 1.0 and every calculated stat is [round(base_stat, 1)], the base
    stats being doubles, so that [calculated_stats] equals [base_stats] when
    every base stat is its own rounding to one decimal place. *)
Theorem enemy_level_one_stats
    (db : list Project.t) (project_id : string) (project : Project.t) :
  find_one db project_id = Some project →
  (∀ new_id enemy_data,
     EnemyCreate.level enemy_data = 1 →
     ∃ enemy db',
       create_enemy db new_id project_id enemy_data = Returns (enemy, db')
       ∧ Enemy.level enemy = 1
       ∧ Enemy.calculated_stats enemy = Enemy.base_stats enemy)
  ∧ (∀ enemy_id N before enemy after,
       Project.enemies project = before ++ enemy :: after →
       Forall (λ e, Enemy.id e ≠ enemy_id) before →
       Enemy.id enemy = enemy_id →
       N ≤ 1 →
       map_Forall (λ _ value, valid value = true) (Enemy.base_stats enemy) →
       ∃ response db' enemy',
         update_enemy_level db project_id enemy_id N = Returns (response, db')
         ∧ find_one db' project_id
           = Some (Project.set_enemies (before ++ enemy' :: after) project)
         ∧ Enemy.level enemy' = 1
         ∧ Enemy.base_stats enemy' = Enemy.base_stats enemy
         ∧ Enemy.calculated_stats enemy' = round1 <$> Enemy.base_stats enemy
         ∧ (map_Forall (λ _ value, round1 value = value)
              (Enemy.base_stats enemy) →
            Enemy.calculated_stats enemy' = Enemy.base_stats enemy')).
Proof.
  intros Hfind. split.
  - intros new_id enemy_data Hlevel.
    rewrite (create_enemy_found _ _ _ _ _ Hfind). cbn zeta.
    eexists _, _. split; [reflexivity|]. by split.
  - intros enemy_id N before enemy after Henemies Hbefore Hid HN Hvalid.
    unfold update_enemy_level.
    rewrite Hfind, Henemies, (level_up_enemy_found _ _ _ _ _ Hbefore Hid).
    unfold scale_enemy. cbn [Enemy.level Enemy.set_level].
    replace (Z.max 1 N) with 1 by lia. rewrite level_multiplier_1.
    cbn -[of_Z fmul round1].
    assert ((λ value, round1 (fmul value (of_Z 1))) <$> Enemy.base_stats enemy
            = round1 <$> Enemy.base_stats enemy) as Hround.
    { apply map_eq. intros stat. rewrite !lookup_fmap.
      destruct (Enemy.base_stats enemy !! stat) as [value|] eqn:E; [|done].
      change (Some (round1 (fmul value (of_Z 1))) = Some (round1 value)).
      by rewrite (fmul_one _ (Hvalid _ _ E)). }
    eexists _, _,
      (Enemy.set_calculated_stats (round1 <$> Enemy.base_stats enemy)
         (Enemy.set_level 1 enemy)).
    split; [by rewrite Hround|]. split_and!; try done.
    + apply (find_one_replace_one _ _ _ _ Hfind), (find_one_id _ _ _ Hfind).
    + intros Hfixed. cbn. apply map_eq. intros stat. rewrite lookup_fmap.
      destruct (Enemy.base_stats enemy !! stat) as [value|] eqn:E; [|done].
      cbn. by rewrite (Hfixed _ _ E).
Qed.

(** C6 (amended), at the sample store: the orc, whose base stats are whole
    numbers, updated to level 1. *)
Lemma enemy_level_one_stats_witness :
  find_one studio_db "p1" = Some studio_project
  ∧ ∃ response db' enemy',
      update_enemy_level studio_db "p1" "e1" 1 = Returns (response, db')
      ∧ find_one db' "p1"
        = Some (Project.set_enemies ([] ++ enemy' :: []) studio_project)
      ∧ Enemy.level enemy' = 1
      ∧ Enemy.base_stats enemy' = Enemy.base_stats orc
      ∧ Enemy.calculated_stats enemy' = round1 <$> Enemy.base_stats orc
      ∧ (map_Forall (λ _ value, round1 value = value) (Enemy.base_stats orc) →
         Enemy.calculated_stats enemy' = Enemy.base_stats enemy').
Proof.
  split; [reflexivity|].
  apply (proj2 (enemy_level_one_stats studio_db "p1" studio_project eq_refl)
           "e1" 1 [] orc []);
    [reflexivity | constructor | reflexivity | lia |].
  change (map_Forall (λ _ value, valid value = true) orc_stats).
  unfold orc_stats.
  repeat (apply map_Forall_insert_2; [reflexivity|]).
  apply map_Forall_empty.
Defined.

(** * Further properties of the routes *)

(** ** The store under [replace_one] *)

Lemma find_one_None_replace_one db project_id doc :
  find_one db project_id = None → replace_one db project_id doc = db.
Proof.
  induction db as [|p db IH]; [done|]. cbn.
  destruct (decide (Project.id p = project_id)); [discriminate|].
  intros H. by rewrite IH.
Qed.

Lemma find_one_replace_one_ne db project_id other doc :
  Project.id doc = project_id →
  other ≠ project_id →
  find_one (replace_one db project_id doc) other = find_one db other.
Proof.
  intros Hdoc Hne. induction db as [|p db IH]; [done|]. cbn.
  destruct (decide (Project.id p = project_id)) as [Hp|Hp]; cbn.
  - rewrite !decide_False by congruence. done.
  - by rewrite IH.
Qed.

Lemma replace_one_ids db project_id doc :
  Project.id doc = project_id →
  Project.id <$> replace_one db project_id doc = Project.id <$> db.
Proof.
  intros Hdoc. induction db as [|p db IH]; [done|]. cbn.
  destruct (decide (Project.id p = project_id)); cbn; congruence.
Qed.

Lemma replace_one_replace_one db project_id doc1 doc2 :
  Project.id doc1 = project_id →
  replace_one (replace_one db project_id doc1) project_id doc2
  = replace_one db project_id doc2.
Proof.
  intros Hdoc. induction db as [|p db IH]; [done|]. cbn.
  destruct (decide (Project.id p = project_id)); cbn.
  - by rewrite decide_True.
  - rewrite decide_False by done. by rewrite IH.
Qed.

Lemma Forall_replace_one (P : Project.t → Prop) db project_id doc :
  Forall P db → P doc → Forall P (replace_one db project_id doc).
Proof.
  intros Hdb Hdoc. induction Hdb as [|p db Hp Hdb IH]; [constructor|]. cbn.
  destruct (decide (Project.id p = project_id)); constructor; auto.
Qed.

Lemma find_one_Forall (P : Project.t → Prop) db project_id project :
  Forall P db → find_one db project_id = Some project → P project.
Proof.
  intros Hdb. induction Hdb as [|p db Hp Hdb IH]; [discriminate|]. cbn.
  destruct (decide (Project.id p = project_id)); [|done]. by intros [= <-].
Qed.

Lemma find_one_app db1 db2 project_id :
  find_one (db1 ++ db2) project_id
  = match find_one db1 project_id with
    | Some project => Some project
    | None => find_one db2 project_id
    end.
Proof.
  induction db1 as [|p db1 IH]; [done|]. cbn.
  by destruct (decide (Project.id p = project_id)).
Qed.

(** ** What a successful request did *)

Lemma create_character_inv db new_id project_id character_data character db' :
  create_character db new_id project_id character_data
  = Returns (character, db') →
  ∃ project,
    find_one db project_id = Some project
    ∧ calculate_character_stats
        (Character.mk new_id (CharacterCreate.name character_data)
           (CharacterCreate.level character_data)
           (CharacterCreate.base_attributes character_data) ∅
           (CharacterCreate.character_class character_data))
        (Project.stat_definitions project)
      = Returns (Character.calculated_stats character)
    ∧ character
      = Character.mk new_id (CharacterCreate.name character_data)
          (CharacterCreate.level character_data)
          (CharacterCreate.base_attributes character_data)
          (Character.calculated_stats character)
          (CharacterCreate.character_class character_data)
    ∧ db'
      = replace_one db project_id
          (Project.set_characters
             (Project.characters project ++ [character]) project).
Proof.
  unfold create_character.
  destruct (find_one db project_id) as [project|]; [|discriminate].
  intros H. apply bind_Returns_inv in H as (stats & Hstats & [= <- <-]).
  by exists project.
Qed.

Lemma update_character_level_inv db project_id character_id N response db' :
  update_character_level db project_id character_id N
  = Returns (response, db') →
  ∃ project before character after stats,
    find_one db project_id = Some project
    ∧ Project.characters project = before ++ character :: after
    ∧ Forall (λ c, Character.id c ≠ character_id) before
    ∧ Character.id character = character_id
    ∧ calculate_character_stats
        (Character.set_level (Z.max 1 N) character)
        (Project.stat_definitions project)
      = Returns stats
    ∧ response = LevelResponse.mk "Character level updated" N
    ∧ db'
      = replace_one db project_id
          (Project.set_characters
             (before
                ++ Character.set_calculated_stats stats
                     (Character.set_level (Z.max 1 N) character)
                :: after)
             project).
Proof.
  unfold update_character_level.
  destruct (find_one db project_id) as [project|]; [|discriminate].
  intros H. apply bind_Returns_inv in H as ([found characters'] & Hloop & H).
  destruct found; [|discriminate]. injection H as <- <-.
  apply level_up_character_inv in Hloop
    as (before & c & after & stats & ? & ? & ? & ? & ->).
  by exists project, before, c, after, stats.
Qed.

Lemma update_enemy_level_inv db project_id enemy_id N response db' :
  update_enemy_level db project_id enemy_id N = Returns (response, db') →
  ∃ project before enemy after multiplier,
    find_one db project_id = Some project
    ∧ Project.enemies project = before ++ enemy :: after
    ∧ Forall (λ e, Enemy.id e ≠ enemy_id) before
    ∧ Enemy.id enemy = enemy_id
    ∧ level_multiplier (Z.max 1 N) = Returns multiplier
    ∧ response = LevelResponse.mk "Enemy level updated" N
    ∧ db'
      = replace_one db project_id
          (Project.set_enemies
             (before
                ++ Enemy.set_calculated_stats
                     ((λ value, round1 (fmul value multiplier))
                        <$> Enemy.base_stats enemy)
                     (Enemy.set_level (Z.max 1 N) enemy)
                :: after)
             project).
Proof.
  unfold update_enemy_level.
  destruct (find_one db project_id) as [project|]; [|discriminate].
  intros H. apply bind_Returns_inv in H as ([found enemies'] & Hloop & H).
  destruct found; [|discriminate]. injection H as <- <-.
  apply level_up_enemy_inv in Hloop
    as (before & e & after & e' & ? & ? & ? & Hscale & ->).
  unfold scale_enemy in Hscale.
  apply bind_Returns_inv in Hscale as (multiplier & Hm & [= <-]).
  by exists project, before, e, after, multiplier.
Qed.

Lemma create_enemy_inv db new_id project_id enemy_data enemy db' :
  create_enemy db new_id project_id enemy_data = Returns (enemy, db') →
  ∃ project,
    find_one db project_id = Some project
    ∧ enemy
      = Enemy.mk new_id (EnemyCreate.name enemy_data)
          (EnemyCreate.enemy_type enemy_data) (EnemyCreate.level enemy_data)
          (EnemyCreate.base_stats enemy_data)
          (EnemyCreate.base_stats enemy_data)
    ∧ db'
      = replace_one db project_id
          (Project.set_enemies (Project.enemies project ++ [enemy]) project).
Proof.
  unfold create_enemy.
  destruct (find_one db project_id) as [project|]; [|discriminate].
  intros [= <- <-]. by exists project.
Qed.

Lemma create_stat_definition_inv db project_id stat_data stat_def db' :
  create_stat_definition db project_id stat_data = Returns (stat_def, db') →
  ∃ project characters',
    find_one db project_id = Some project
    ∧ stat_def = stat_definition_of stat_data
    ∧ recalculate_all (Project.stat_definitions project ++ [stat_def])
        (Project.characters project)
      = Returns characters'
    ∧ db'
      = replace_one db project_id
          (Project.set_characters characters'
             (Project.set_stat_definitions
                (Project.stat_definitions project ++ [stat_def]) project)).
Proof.
  unfold create_stat_definition.
  destruct (find_one db project_id) as [project|]; [|discriminate].
  intros H. apply bind_Returns_inv in H as (characters' & Hrec & [= <- <-]).
  by exists project, characters'.
Qed.

Lemma update_stat_definition_inv db project_id stat_name stat_data message db' :
  update_stat_definition db project_id stat_name stat_data
  = Returns (message, db') →
  ∃ project before old after characters',
    find_one db project_id = Some project
    ∧ Project.stat_definitions project = before ++ old :: after
    ∧ Forall (λ d, StatDefinition.name d ≠ stat_name) before
    ∧ StatDefinition.name old = stat_name
    ∧ recalculate_all (before ++ stat_definition_of stat_data :: after)
        (Project.characters project)
      = Returns characters'
    ∧ db'
      = replace_one db project_id
          (Project.set_characters characters'
             (Project.set_stat_definitions
                (before ++ stat_definition_of stat_data :: after) project)).
Proof.
  unfold update_stat_definition.
  destruct (find_one db project_id) as [project|]; [|discriminate].
  destruct (replace_stat_definition _ _ _) as [found ds'] eqn:Hreplace.
  destruct found; [|discriminate]. cbn -[recalculate_all].
  apply replace_stat_definition_found in Hreplace
    as (before & old & after & Hdefs & Hbefore & Hold & ->).
  intros H. apply bind_Returns_inv in H as (characters' & Hrec & [= <- <-]).
  by exists project, before, old, after, characters'.
Qed.

(** ** Invariants of every reachable store *)

Lemma run_invariant (P : Project.t → Prop) :
  (∀ db r, Forall P db → Forall P (execute db r)) →
  ∀ db requests, Forall P db → Forall P (run db requests).
Proof.
  intros Hstep db requests. revert db. unfold run.
  induction requests as [|r rs IH]; intros db Hdb; [exact Hdb|].
  cbn. by apply IH, Hstep.
Qed.

Lemma stat_total_ext c1 c2 stat_def :
  Character.level c1 = Character.level c2 →
  Character.base_attributes c1 = Character.base_attributes c2 →
  stat_total c1 stat_def = stat_total c2 stat_def.
Proof.
  intros Hlevel Hattrs. unfold stat_total. rewrite Hlevel.
  assert (∀ total,
            foldl (add_modifier c1) total (StatDefinition.modifiers stat_def)
            = foldl (add_modifier c2) total (StatDefinition.modifiers stat_def))
    as Hfold.
  { induction (StatDefinition.modifiers stat_def) as [|m ms IH];
      intros total; [done|].
    cbn. rewrite IH. unfold add_modifier, attribute_value.
    by rewrite Hattrs. }
  by rewrite Hfold.
Qed.

Lemma calculate_character_stats_ext c1 c2 stat_definitions :
  Character.level c1 = Character.level c2 →
  Character.base_attributes c1 = Character.base_attributes c2 →
  calculate_character_stats c1 stat_definitions
  = calculate_character_stats c2 stat_definitions.
Proof.
  intros Hlevel Hattrs. unfold calculate_character_stats.
  generalize (∅ : gmap string float).
  induction stat_definitions as [|d ds IH]; intros calculated; [done|].
  cbn [calculate_loop]. rewrite (stat_total_ext c1 c2 d Hlevel Hattrs).
  destruct (stat_total c2 d) as [total|e]; [|done]. apply IH.
Qed.

Lemma recalculated_current stat_definitions characters characters' :
  Forall2 (recalculated stat_definitions) characters characters' →
  Forall
    (λ c, calculate_character_stats c stat_definitions
          = Returns (Character.calculated_stats c))
    characters'.
Proof.
  induction 1 as [|c c' cs cs' (Hcalc & Hlevel & Hattrs & _) _ IH];
    constructor; [|done].
  by rewrite (calculate_character_stats_ext c' c).
Qed.

Lemma execute_stats_current db r :
  Forall stats_current db → Forall stats_current (execute db r).
Proof.
  intros Hdb.
  destruct r as [new_id now data|new_id pid data|pid cid N|new_id pid data
                |pid eid N|pid data|pid stat_name data]; cbn [execute].
  - cbn. apply Forall_app. split; [done|]. repeat constructor.
  - destruct (create_character db new_id pid data) as [[c db']|e] eqn:E;
      [|done]. cbn.
    apply create_character_inv in E as (p & Hfind & Hcalc & Hc & ->).
    apply Forall_replace_one; [done|].
    pose proof (find_one_Forall _ _ _ _ Hdb Hfind) as Hp.
    unfold stats_current in *. cbn. apply Forall_app. split; [done|].
    constructor; [|constructor]. rewrite <- Hcalc.
    apply calculate_character_stats_ext; by rewrite Hc.
  - destruct (update_character_level db pid cid N) as [[resp db']|e] eqn:E;
      [|done]. cbn.
    apply update_character_level_inv in E
      as (p & before & c & after & stats & Hfind & Hchars & _ & _ & Hcalc
          & _ & ->).
    apply Forall_replace_one; [done|].
    pose proof (find_one_Forall _ _ _ _ Hdb Hfind) as Hp.
    unfold stats_current in *. cbn. rewrite Hchars in Hp.
    apply Forall_app in Hp as [Hbefore Hafter].
    apply Forall_cons in Hafter as [_ Hafter].
    apply Forall_app. split; [done|]. constructor; [|done].
    etrans; [|exact Hcalc]. by apply calculate_character_stats_ext.
  - destruct (create_enemy db new_id pid data) as [[enemy db']|e] eqn:E;
      [|done]. cbn.
    apply create_enemy_inv in E as (p & Hfind & _ & ->).
    apply Forall_replace_one; [done|].
    exact (find_one_Forall _ _ _ _ Hdb Hfind).
  - destruct (update_enemy_level db pid eid N) as [[resp db']|e] eqn:E;
      [|done]. cbn.
    apply update_enemy_level_inv in E
      as (p & before & enemy & after & m & Hfind & _ & _ & _ & _ & _ & ->).
    apply Forall_replace_one; [done|].
    exact (find_one_Forall _ _ _ _ Hdb Hfind).
  - destruct (create_stat_definition db pid data) as [[d db']|e] eqn:E;
      [|done]. cbn.
    apply create_stat_definition_inv in E
      as (p & characters' & Hfind & _ & Hrec & ->).
    apply Forall_replace_one; [done|].
    apply recalculate_all_Returns in Hrec.
    unfold stats_current. cbn. by eapply recalculated_current.
  - destruct (update_stat_definition db pid stat_name data)
      as [[msg db']|e] eqn:E; [|done]. cbn.
    apply update_stat_definition_inv in E
      as (p & before & old & after & characters' & Hfind & _ & _ & _ & Hrec
          & ->).
    apply Forall_replace_one; [done|].
    apply recalculate_all_Returns in Hrec.
    unfold stats_current. cbn. by eapply recalculated_current.
Qed.

(** X1: in every store reached from the empty collection by any sequence of
    writing requests, each character's [calculated_stats] is exactly what
    [calculate_character_stats] returns for its present level and base
    attributes on the present stat definitions of its project: no route
    leaves a stale value behind. *)
Theorem reachable_stats_current (requests : list request) :
  Forall stats_current (run [] requests).
Proof.
  apply run_invariant; [apply execute_stats_current | constructor].
Qed.

Lemma execute_enemy_keys_aligned db r :
  Forall enemy_keys_aligned db → Forall enemy_keys_aligned (execute db r).
Proof.
  intros Hdb.
  destruct r as [new_id now data|new_id pid data|pid cid N|new_id pid data
                |pid eid N|pid data|pid stat_name data]; cbn [execute].
  - cbn. apply Forall_app. split; [done|]. repeat constructor.
  - destruct (create_character db new_id pid data) as [[c db']|e] eqn:E;
      [|done]. cbn.
    apply create_character_inv in E as (p & Hfind & _ & _ & ->).
    apply Forall_replace_one; [done|].
    exact (find_one_Forall _ _ _ _ Hdb Hfind).
  - destruct (update_character_level db pid cid N) as [[resp db']|e] eqn:E;
      [|done]. cbn.
    apply update_character_level_inv in E
      as (p & before & c & after & stats & Hfind & _ & _ & _ & _ & _ & ->).
    apply Forall_replace_one; [done|].
    exact (find_one_Forall _ _ _ _ Hdb Hfind).
  - destruct (create_enemy db new_id pid data) as [[enemy db']|e] eqn:E;
      [|done]. cbn.
    apply create_enemy_inv in E as (p & Hfind & -> & ->).
    apply Forall_replace_one; [done|].
    pose proof (find_one_Forall _ _ _ _ Hdb Hfind) as Hp.
    unfold enemy_keys_aligned in *. cbn. apply Forall_app. split; [done|].
    by repeat constructor.
  - destruct (update_enemy_level db pid eid N) as [[resp db']|e] eqn:E;
      [|done]. cbn.
    apply update_enemy_level_inv in E
      as (p & before & enemy & after & m & Hfind & Henemies & _ & _ & _ & _
          & ->).
    apply Forall_replace_one; [done|].
    pose proof (find_one_Forall _ _ _ _ Hdb Hfind) as Hp.
    unfold enemy_keys_aligned in *. cbn. rewrite Henemies in Hp.
    apply Forall_app in Hp as [Hbefore Hafter].
    apply Forall_cons in Hafter as [_ Hafter].
    apply Forall_app. split; [done|]. constructor; [|done].
    cbn. apply dom_fmap_L.
  - destruct (create_stat_definition db pid data) as [[d db']|e] eqn:E;
      [|done]. cbn.
    apply create_stat_definition_inv in E
      as (p & characters' & Hfind & _ & _ & ->).
    apply Forall_replace_one; [done|].
    exact (find_one_Forall _ _ _ _ Hdb Hfind).
  - destruct (update_stat_definition db pid stat_name data)
      as [[msg db']|e] eqn:E; [|done]. cbn.
    apply update_stat_definition_inv in E
      as (p & before & old & after & characters' & Hfind & _ & _ & _ & _
          & ->).
    apply Forall_replace_one; [done|].
    exact (find_one_Forall _ _ _ _ Hdb Hfind).
Qed.

(** X2: in every store reached from the empty collection by any sequence of
    writing requests, the [calculated_stats] of each enemy has exactly the
    keys of its [base_stats]. *)
Theorem reachable_enemy_keys_aligned (requests : list request) :
  Forall enemy_keys_aligned (run [] requests).
Proof.
  apply run_invariant; [apply execute_enemy_keys_aligned | constructor].
Qed.

(** ** One request touches one project *)

Lemma store_after_replace {A} db project_id
    (result : outcome (A * list Project.t)) :
  (∀ a db', result = Returns (a, db') →
     ∃ doc, Project.id doc = project_id
            ∧ db' = replace_one db project_id doc) →
  (∀ other, other ≠ project_id →
     find_one (store_after db result) other = find_one db other)
  ∧ Project.id <$> store_after db result = Project.id <$> db.
Proof.
  intros H. destruct result as [[a db']|e]; [|done]. cbn.
  destruct (H a db' eq_refl) as (doc & Hdoc & ->). split.
  - intros other Hother. by apply find_one_replace_one_ne.
  - by apply replace_one_ids.
Qed.

Lemma execute_replace db r :
  (∀ new_id now data, r ≠ CreateProject new_id now data) →
  (∀ other, other ≠ target r →
     find_one (execute db r) other = find_one db other)
  ∧ Project.id <$> execute db r = Project.id <$> db.
Proof.
  intros Hr.
  destruct r as [new_id now data|new_id pid data|pid cid N|new_id pid data
                |pid eid N|pid data|pid stat_name data];
    cbn [execute target]; [by destruct (Hr new_id now data)| ..];
    apply store_after_replace; intros a db' E.
  - apply create_character_inv in E as (p & Hfind & _ & _ & ->).
    eexists. split; [|done]. exact (find_one_id _ _ _ Hfind).
  - apply update_character_level_inv in E
      as (p & ? & ? & ? & ? & Hfind & _ & _ & _ & _ & _ & ->).
    eexists. split; [|done]. exact (find_one_id _ _ _ Hfind).
  - apply create_enemy_inv in E as (p & Hfind & _ & ->).
    eexists. split; [|done]. exact (find_one_id _ _ _ Hfind).
  - apply update_enemy_level_inv in E
      as (p & ? & ? & ? & ? & Hfind & _ & _ & _ & _ & _ & ->).
    eexists. split; [|done]. exact (find_one_id _ _ _ Hfind).
  - apply create_stat_definition_inv in E as (p & ? & Hfind & _ & _ & ->).
    eexists. split; [|done]. exact (find_one_id _ _ _ Hfind).
  - apply update_stat_definition_inv in E
      as (p & ? & ? & ? & ? & Hfind & _ & _ & _ & _ & ->).
    eexists. split; [|done]. exact (find_one_id _ _ _ Hfind).
Qed.

(** X3: a writing request changes nothing outside the project it addresses:
    the lookup of every other project id gives the same document before and
    after, whether the request succeeds or raises; and only [create_project]
    changes the sequence of project ids in the store, by appending the new
    one. *)
Theorem request_touches_one_project
    (db : list Project.t) (r : request) (other : string) :
  other ≠ target r →
  find_one (execute db r) other = find_one db other
  ∧ Project.id <$> execute db r
    = match r with
      | CreateProject new_id _ _ => (Project.id <$> db) ++ [new_id]
      | _ => Project.id <$> db
      end.
Proof.
  intros Hother.
  destruct r as [new_id now data| | | | | |] eqn:Er;
    [|rewrite <- Er in *; destruct (execute_replace db r) as [H1 H2];
      [by subst r|]; split; [by apply H1|rewrite H2; by subst r] ..].
  cbn in *. unfold insert_one. split.
  - rewrite find_one_app. destruct (find_one db other); [done|].
    cbn. by rewrite decide_False.
  - by rewrite fmap_app.
Qed.

(** X3, at the sample stores: raising the orc of project "p1" leaves the
    lookup of project "p2" as it was. *)
Lemma request_touches_one_project_witness :
  find_one (execute (studio_db ++ troll_db) (UpdateEnemyLevel "p1" "e1" 3))
    "p2"
  = find_one (studio_db ++ troll_db) "p2"
  ∧ Project.id
      <$> execute (studio_db ++ troll_db) (UpdateEnemyLevel "p1" "e1" 3)
    = Project.id <$> (studio_db ++ troll_db).
Proof.
  apply (request_touches_one_project (studio_db ++ troll_db)
           (UpdateEnemyLevel "p1" "e1" 3) "p2").
  discriminate.
Defined.

(** ** How the level routes fail *)

Lemma level_up_character_missing character_id N defs characters :
  Forall (λ c, Character.id c ≠ character_id) characters →
  level_up_character character_id N defs characters
  = Returns (false, characters).
Proof.
  induction 1 as [|c cs Hc _ IH]; [done|]. cbn.
  rewrite decide_False by done. by rewrite IH.
Qed.

Lemma level_up_character_false character_id N defs characters :
  ∀ characters',
    level_up_character character_id N defs characters
    = Returns (false, characters') →
    Forall (λ c, Character.id c ≠ character_id) characters.
Proof.
  induction characters as [|c cs IH]; intros cs' H; [constructor|].
  cbn in H. destruct (decide (Character.id c = character_id)) as [Hid|Hid].
  - apply bind_Returns_inv in H as (stats & _ & [=]).
  - apply bind_Returns_inv in H as ([found rest'] & Hrest & [= -> <-]).
    constructor; [done|]. by eapply IH.
Qed.

Lemma level_up_character_Raises character_id N defs characters e :
  level_up_character character_id N defs characters = Raises e →
  e = OverflowError ∧ float_of_int (Z.max 1 N - 1) = None.
Proof.
  induction characters as [|c cs IH]; [discriminate|]. cbn.
  destruct (decide (Character.id c = character_id)) as [Hid|Hid]; intros H.
  - apply bind_Raises_inv in H as [H|(stats & _ & [=])].
    apply calculate_loop_Raises in H as (d & _ & H).
    by apply stat_formula_Raises in H.
  - apply bind_Raises_inv in H as [H|([found rest'] & _ & [=])]. auto.
Qed.

Lemma level_up_enemy_missing enemy_id N enemies :
  Forall (λ e, Enemy.id e ≠ enemy_id) enemies →
  level_up_enemy enemy_id N enemies = Returns (false, enemies).
Proof.
  induction 1 as [|e es He _ IH]; [done|]. cbn.
  rewrite decide_False by done. by rewrite IH.
Qed.

Lemma level_up_enemy_false enemy_id N enemies :
  ∀ enemies',
    level_up_enemy enemy_id N enemies = Returns (false, enemies') →
    Forall (λ e, Enemy.id e ≠ enemy_id) enemies.
Proof.
  induction enemies as [|e es IH]; intros es' H; [constructor|].
  cbn in H. destruct (decide (Enemy.id e = enemy_id)) as [Hid|Hid].
  - apply bind_Returns_inv in H as (e' & _ & [=]).
  - apply bind_Returns_inv in H as ([found rest'] & Hrest & [= -> <-]).
    constructor; [done|]. by eapply IH.
Qed.

Lemma level_multiplier_Raises level e :
  level_multiplier level = Raises e →
  e = OverflowError ∧ float_of_int (level - 1) = None.
Proof.
  unfold level_multiplier. intros H.
  apply bind_Raises_inv in H as [H|(x & _ & H)].
  - by apply int_mul_float_Raises in H.
  - discriminate H.
Qed.

Lemma level_up_enemy_Raises enemy_id N enemies e :
  level_up_enemy enemy_id N enemies = Raises e →
  e = OverflowError ∧ float_of_int (Z.max 1 N - 1) = None.
Proof.
  induction enemies as [|x xs IH]; [discriminate|]. cbn.
  destruct (decide (Enemy.id x = enemy_id)) as [Hid|Hid]; intros H.
  - apply bind_Raises_inv in H as [H|(x' & _ & [=])].
    unfold scale_enemy in H.
    apply bind_Raises_inv in H as [H|(m & _ & [=])].
    by apply level_multiplier_Raises in H.
  - apply bind_Raises_inv in H as [H|([found rest'] & _ & [=])]. auto.
Qed.

(** X4: [update_character_level] answers 404 "Project not found" exactly when
    no project has the id, and 404 "Character not found" exactly when the
    project exists and none of its characters has the id; any other exception
    it raises is an [OverflowError]. *)
Theorem update_character_level_errors
    (db : list Project.t) (project_id character_id : string) (N : Z) :
  (update_character_level db project_id character_id N = project_not_found
   ↔ find_one db project_id = None)
  ∧ (update_character_level db project_id character_id N
     = Raises (HTTPException 404 "Character not found")
     ↔ ∃ project,
         find_one db project_id = Some project
         ∧ Forall (λ c, Character.id c ≠ character_id)
             (Project.characters project))
  ∧ (∀ e,
       update_character_level db project_id character_id N = Raises e →
       e = HTTPException 404 "Project not found"
       ∨ e = HTTPException 404 "Character not found"
       ∨ e = OverflowError).
Proof.
  unfold update_character_level, project_not_found.
  destruct (find_one db project_id) as [project|];
    [|split; [done|]; split;
      [split; [discriminate | by intros (? & [=] & _)]
      |intros e [= <-]; auto]].
  destruct (level_up_character _ _ _ _) as [[[|] characters']|e'] eqn:Hloop;
    cbn.
  - split; [split; discriminate|]. split; [|discriminate].
    split; [discriminate|]. intros (p & [= <-] & Hnone).
    by rewrite (level_up_character_missing _ _ _ _ Hnone) in Hloop.
  - apply level_up_character_false in Hloop.
    split; [split; discriminate|].
    split; [split; [intros _; by exists project | done]|].
    intros e [= <-]. auto.
  - pose proof Hloop as Hraise.
    apply level_up_character_Raises in Hraise as [-> Hlevel].
    split; [split; discriminate|]. split; [|intros e [= <-]; auto].
    split; [discriminate|]. intros (p & [= <-] & Hnone).
    by rewrite (level_up_character_missing _ _ _ _ Hnone) in Hloop.
Qed.

(** X5: [update_enemy_level] answers 404 "Project not found" exactly when no
    project has the id, and 404 "Enemy not found" exactly when the project
    exists and none of its enemies has the id; any other exception it raises
    is an [OverflowError]. *)
Theorem update_enemy_level_errors
    (db : list Project.t) (project_id enemy_id : string) (N : Z) :
  (update_enemy_level db project_id enemy_id N = project_not_found
   ↔ find_one db project_id = None)
  ∧ (update_enemy_level db project_id enemy_id N
     = Raises (HTTPException 404 "Enemy not found")
     ↔ ∃ project,
         find_one db project_id = Some project
         ∧ Forall (λ e, Enemy.id e ≠ enemy_id) (Project.enemies project))
  ∧ (∀ e,
       update_enemy_level db project_id enemy_id N = Raises e →
       e = HTTPException 404 "Project not found"
       ∨ e = HTTPException 404 "Enemy not found"
       ∨ e = OverflowError).
Proof.
  unfold update_enemy_level, project_not_found.
  destruct (find_one db project_id) as [project|];
    [|split; [done|]; split;
      [split; [discriminate | by intros (? & [=] & _)]
      |intros e [= <-]; auto]].
  destruct (level_up_enemy _ _ _) as [[[|] enemies']|e'] eqn:Hloop; cbn.
  - split; [split; discriminate|]. split; [|discriminate].
    split; [discriminate|]. intros (p & [= <-] & Hnone).
    by rewrite (level_up_enemy_missing _ _ _ Hnone) in Hloop.
  - apply level_up_enemy_false in Hloop.
    split; [split; discriminate|].
    split; [split; [intros _; by exists project | done]|].
    intros e [= <-]. auto.
  - pose proof Hloop as Hraise.
    apply level_up_enemy_Raises in Hraise as [-> Hlevel].
    split; [split; discriminate|]. split; [|intros e [= <-]; auto].
    split; [discriminate|]. intros (p & [= <-] & Hnone).
    by rewrite (level_up_enemy_missing _ _ _ Hnone) in Hloop.
Qed.

(** ** Level updates start from the stored base values *)

(** X6: an enemy level update does not build on an earlier one.  After a
    successful update of an enemy to one level, updating it to a level [M]
    answers and stores exactly what updating the original store to [M] would:
    scaling always starts from [base_stats], never from the previous
    [calculated_stats] or level.  In particular repeating an update changes
    nothing. *)
Theorem update_enemy_level_overwrites
    (db db1 : list Project.t) (project_id enemy_id : string) (N M : Z)
    (response : LevelResponse.t) :
  update_enemy_level db project_id enemy_id N = Returns (response, db1) →
  update_enemy_level db1 project_id enemy_id M
  = update_enemy_level db project_id enemy_id M.
Proof.
  intros H. apply update_enemy_level_inv in H
    as (p & before & enemy & after & m & Hfind & Henemies & Hbefore & Hid
        & _ & _ & ->).
  pose proof (find_one_id _ _ _ Hfind) as Hp.
  unfold update_enemy_level at 1.
  rewrite (find_one_replace_one _ _ _ _ Hfind) by done.
  cbn [Project.enemies Project.set_enemies].
  rewrite (level_up_enemy_found _ _ _ _ _ Hbefore) by done.
  unfold update_enemy_level.
  rewrite Hfind, Henemies, (level_up_enemy_found _ _ _ _ _ Hbefore Hid).
  unfold scale_enemy. cbn [Enemy.level Enemy.set_level Enemy.base_stats].
  destruct (level_multiplier (Z.max 1 M)) as [m'|e]; [|done]. cbn.
  by rewrite replace_one_replace_one.
Qed.

(** X6, at the sample store: the orc raised to level 3, then to level 2. *)
Lemma update_enemy_level_overwrites_witness :
  ∃ response db1,
    update_enemy_level studio_db "p1" "e1" 3 = Returns (response, db1)
    ∧ update_enemy_level db1 "p1" "e1" 2
      = update_enemy_level studio_db "p1" "e1" 2.
Proof.
  eexists _, _. split; [vm_compute; reflexivity|].
  eapply (update_enemy_level_overwrites studio_db _ "p1" "e1" 3 2).
  vm_compute; reflexivity.
Defined.

(** X7: a character level update does not build on an earlier one either:
    after a successful update of a character, updating it to a level [M]
    answers and stores exactly what updating the original store to [M]
    would. *)
Theorem update_character_level_overwrites
    (db db1 : list Project.t) (project_id character_id : string) (N M : Z)
    (response : LevelResponse.t) :
  update_character_level db project_id character_id N
  = Returns (response, db1) →
  update_character_level db1 project_id character_id M
  = update_character_level db project_id character_id M.
Proof.
  intros H. apply update_character_level_inv in H
    as (p & before & c & after & stats & Hfind & Hchars & Hbefore & Hid
        & _ & _ & ->).
  pose proof (find_one_id _ _ _ Hfind) as Hp.
  unfold update_character_level at 1.
  rewrite (find_one_replace_one _ _ _ _ Hfind) by done.
  cbn [Project.characters Project.set_characters Project.stat_definitions].
  rewrite (level_up_character_found _ _ _ _ _ _ Hbefore) by done.
  unfold update_character_level.
  rewrite Hfind, Hchars, (level_up_character_found _ _ _ _ _ _ Hbefore Hid).
  rewrite (calculate_character_stats_ext
             (Character.set_level (Z.max 1 M)
                (Character.set_calculated_stats stats
                   (Character.set_level (Z.max 1 N) c)))
             (Character.set_level (Z.max 1 M) c)) by done.
  destruct (calculate_character_stats _ _) as [stats'|e]; [|done]. cbn.
  by rewrite replace_one_replace_one.
Qed.

(** X7, at the sample store: gandalf raised to level 5, then to level 2. *)
Lemma update_character_level_overwrites_witness :
  ∃ response db1,
    update_character_level studio_db "p1" "c1" 5 = Returns (response, db1)
    ∧ update_character_level db1 "p1" "c1" 2
      = update_character_level studio_db "p1" "c1" 2.
Proof.
  eexists _, _. split; [vm_compute; reflexivity|].
  eapply (update_character_level_overwrites studio_db _ "p1" "c1" 5 2).
  vm_compute; reflexivity.
Defined.

Lemma scale_enemy_clamped N enemy :
  scale_enemy (Z.max 1 N) enemy = scale_enemy N enemy.
Proof. unfold scale_enemy. by rewrite Z.max_assoc, Z.max_id. Qed.

Lemma level_up_enemy_clamped enemy_id N enemies :
  level_up_enemy enemy_id (Z.max 1 N) enemies
  = level_up_enemy enemy_id N enemies.
Proof.
  induction enemies as [|e es IH]; [done|]. cbn.
  by rewrite scale_enemy_clamped, IH.
Qed.

Lemma level_up_character_clamped character_id N defs characters :
  level_up_character character_id (Z.max 1 N) defs characters
  = level_up_character character_id N defs characters.
Proof.
  induction characters as [|c cs IH]; [done|]. cbn.
  by rewrite Z.max_assoc, Z.max_id, IH.
Qed.

(** X8: what a level route stores and whether it fails depend on the
    requested level [N] only through [max(1, N)]: a request with [N] stores
    the same documents as a request with [max(1, N)], so all requests with
    [N ≤ 1] store the same thing; only the [level] echoed in the response
    differs. *)
Theorem level_update_store_clamped
    (db : list Project.t) (project_id entity_id : string) (N : Z) :
  store_after db (update_character_level db project_id entity_id N)
  = store_after db
      (update_character_level db project_id entity_id (Z.max 1 N))
  ∧ store_after db (update_enemy_level db project_id entity_id N)
    = store_after db (update_enemy_level db project_id entity_id (Z.max 1 N))
  ∧ (∀ e,
       update_character_level db project_id entity_id N = Raises e
       ↔ update_character_level db project_id entity_id (Z.max 1 N)
         = Raises e)
  ∧ (∀ e,
       update_enemy_level db project_id entity_id N = Raises e
       ↔ update_enemy_level db project_id entity_id (Z.max 1 N) = Raises e).
Proof.
  unfold update_character_level, update_enemy_level.
  destruct (find_one db project_id) as [project|]; [|done].
  rewrite level_up_character_clamped, level_up_enemy_clamped.
  split_and!.
  - by destruct (level_up_character _ _ _ _) as [[[|] ?]|?].
  - by destruct (level_up_enemy _ _ _) as [[[|] ?]|?].
  - intros e. by destruct (level_up_character _ _ _ _) as [[[|] ?]|?].
  - intros e. by destruct (level_up_enemy _ _ _) as [[[|] ?]|?].
Qed.

(** ** The balance comparison *)

Lemma next_character_None character_id characters :
  next_character character_id characters = None
  ↔ Forall (λ c, Character.id c ≠ character_id) characters.
Proof.
  induction characters as [|c cs IH]; cbn.
  - split; [constructor|done].
  - destruct (decide (Character.id c = character_id)) as [Hid|Hid].
    + split; [discriminate|]. intros H. by apply Forall_cons in H as [? _].
    + rewrite IH. split; [by constructor|].
      intros H. by apply Forall_cons in H as [_ ?].
Qed.

Lemma next_character_app character_id l1 l2 :
  next_character character_id (l1 ++ l2)
  = match next_character character_id l1 with
    | Some c => Some c
    | None => next_character character_id l2
    end.
Proof.
  induction l1 as [|c l1 IH]; [done|]. cbn.
  by destruct (decide (Character.id c = character_id)).
Qed.

Lemma next_character_found character_id before character after :
  Forall (λ c, Character.id c ≠ character_id) before →
  Character.id character = character_id →
  next_character character_id (before ++ character :: after) = Some character.
Proof.
  intros Hbefore Hid. rewrite next_character_app.
  apply next_character_None in Hbefore as ->. cbn. by rewrite decide_True.
Qed.

Lemma next_character_Some character_id characters character :
  next_character character_id characters = Some character →
  ∃ before after,
    characters = before ++ character :: after
    ∧ Forall (λ c, Character.id c ≠ character_id) before
    ∧ Character.id character = character_id.
Proof.
  induction characters as [|c cs IH]; [discriminate|]. cbn.
  destruct (decide (Character.id c = character_id)) as [Hid|Hid].
  - intros [= <-]. by exists [], cs.
  - intros H. destruct (IH H) as (before & after & -> & ? & ?).
    exists (c :: before), after. split_and!; auto.
Qed.

Lemma next_enemy_None enemy_id enemies :
  next_enemy enemy_id enemies = None
  ↔ Forall (λ e, Enemy.id e ≠ enemy_id) enemies.
Proof.
  induction enemies as [|e es IH]; cbn.
  - split; [constructor|done].
  - destruct (decide (Enemy.id e = enemy_id)) as [Hid|Hid].
    + split; [discriminate|]. intros H. by apply Forall_cons in H as [? _].
    + rewrite IH. split; [by constructor|].
      intros H. by apply Forall_cons in H as [_ ?].
Qed.

Lemma next_enemy_Some enemy_id enemies enemy :
  next_enemy enemy_id enemies = Some enemy →
  ∃ before after,
    enemies = before ++ enemy :: after
    ∧ Forall (λ e, Enemy.id e ≠ enemy_id) before
    ∧ Enemy.id enemy = enemy_id.
Proof.
  induction enemies as [|e es IH]; [discriminate|]. cbn.
  destruct (decide (Enemy.id e = enemy_id)) as [Hid|Hid].
  - intros [= <-]. by exists [], es.
  - intros H. destruct (IH H) as (before & after & -> & ? & ?).
    exists (e :: before), after. split_and!; auto.
Qed.

(** X9: [get_balance_comparison] answers 404 "Project not found" exactly when
    no project has the id, and 404 "Character or enemy not found" exactly
    when the project exists and lacks a character with the character id or
    an enemy with the enemy id; it fails in no other way.  When it returns,
    the character and the enemy are the first ones of the project with the
    requested ids, and the comparison repeats their stored levels and
    [calculated_stats]. *)
Theorem get_balance_comparison_outcomes
    (db : list Project.t) (project_id character_id enemy_id : string) :
  (get_balance_comparison db project_id character_id enemy_id
   = project_not_found
   ↔ find_one db project_id = None)
  ∧ (get_balance_comparison db project_id character_id enemy_id
     = Raises (HTTPException 404 "Character or enemy not found")
     ↔ ∃ project,
         find_one db project_id = Some project
         ∧ (Forall (λ c, Character.id c ≠ character_id)
              (Project.characters project)
            ∨ Forall (λ e, Enemy.id e ≠ enemy_id)
                (Project.enemies project)))
  ∧ (∀ e,
       get_balance_comparison db project_id character_id enemy_id = Raises e →
       e = HTTPException 404 "Project not found"
       ∨ e = HTTPException 404 "Character or enemy not found")
  ∧ (∀ b,
       get_balance_comparison db project_id character_id enemy_id = Returns b →
       ∃ project before_c after_c before_e after_e,
         find_one db project_id = Some project
         ∧ Project.characters project
           = before_c ++ BalanceResponse.character b :: after_c
         ∧ Forall (λ c, Character.id c ≠ character_id) before_c
         ∧ Character.id (BalanceResponse.character b) = character_id
         ∧ Project.enemies project
           = before_e ++ BalanceResponse.enemy b :: after_e
         ∧ Forall (λ e, Enemy.id e ≠ enemy_id) before_e
         ∧ Enemy.id (BalanceResponse.enemy b) = enemy_id
         ∧ BalanceResponse.comparison b
           = Comparison.mk (Character.level (BalanceResponse.character b))
               (Enemy.level (BalanceResponse.enemy b))
               (Character.calculated_stats (BalanceResponse.character b))
               (Enemy.calculated_stats (BalanceResponse.enemy b))).
Proof.
  unfold get_balance_comparison, project_not_found.
  destruct (find_one db project_id) as [project|];
    [|split; [done|]; split;
      [split; [discriminate | by intros (? & [=] & _)]
      |split; [intros e [= <-]; auto | discriminate]]].
  destruct (next_character character_id (Project.characters project))
    as [c|] eqn:Hc;
    [destruct (next_enemy enemy_id (Project.enemies project)) as [x|] eqn:Hx|];
    cbn.
  - split; [split; discriminate|]. split; [|split; [discriminate|]].
    + split; [discriminate|]. intros (p & [= <-] & [H|H]).
      * apply next_character_None in H. congruence.
      * apply next_enemy_None in H. congruence.
    + intros b [= <-]. cbn.
      apply next_character_Some in Hc as (bc & ac & ? & ? & ?).
      apply next_enemy_Some in Hx as (be & ae & ? & ? & ?).
      by exists project, bc, ac, be, ae.
  - apply next_enemy_None in Hx.
    split; [split; discriminate|].
    split; [split; [intros _; exists project; auto | done]|].
    split; [intros e [= <-]; auto | discriminate].
  - apply next_character_None in Hc.
    split; [split; discriminate|].
    split; [split; [intros _; exists project; auto | done]|].
    split; [intros e [= <-]; auto | discriminate].
Qed.

(** X10: after a successful character level update with requested level [N],
    the balance comparison of that character against any enemy fails exactly
    as it did before, and otherwise keeps the enemy side unchanged while
    reporting the character at level [max(1, N)] (not the raw [N] echoed by
    the update) with the stats the calculator returns at that level. *)
Theorem balance_after_character_level_update
    (db db' : list Project.t) (project_id character_id : string) (N : Z)
    (response : LevelResponse.t) :
  update_character_level db project_id character_id N
  = Returns (response, db') →
  ∀ enemy_id,
    match get_balance_comparison db project_id character_id enemy_id with
    | Returns b =>
        ∃ b' project,
          get_balance_comparison db' project_id character_id enemy_id
          = Returns b'
          ∧ find_one db project_id = Some project
          ∧ BalanceResponse.enemy b' = BalanceResponse.enemy b
          ∧ Comparison.enemy_level (BalanceResponse.comparison b')
            = Comparison.enemy_level (BalanceResponse.comparison b)
          ∧ Comparison.enemy_stats (BalanceResponse.comparison b')
            = Comparison.enemy_stats (BalanceResponse.comparison b)
          ∧ Comparison.character_level (BalanceResponse.comparison b')
            = Z.max 1 N
          ∧ calculate_character_stats
              (Character.set_level (Z.max 1 N) (BalanceResponse.character b))
              (Project.stat_definitions project)
            = Returns
                (Comparison.character_stats (BalanceResponse.comparison b'))
          ∧ BalanceResponse.character b'
            = Character.set_calculated_stats
                (Comparison.character_stats (BalanceResponse.comparison b'))
                (Character.set_level (Z.max 1 N)
                   (BalanceResponse.character b))
    | Raises e =>
        get_balance_comparison db' project_id character_id enemy_id
        = Raises e
    end.
Proof.
  intros H enemy_id. apply update_character_level_inv in H
    as (p & before & c & after & stats & Hfind & Hchars & Hbefore & Hid
        & Hcalc & _ & ->).
  pose proof (find_one_id _ _ _ Hfind) as Hp.
  unfold get_balance_comparison.
  rewrite (find_one_replace_one _ _ _ _ Hfind) by done.
  rewrite Hfind, Hchars.
  cbn [Project.characters Project.enemies Project.set_characters].
  rewrite !next_character_found by done.
  destruct (next_enemy enemy_id (Project.enemies p)) as [x|]; [|done].
  cbn. eexists _, p. split; [reflexivity|]. by split_and!.
Qed.

(** X10, at the sample store: gandalf updated with level -2, compared with
    the orc. *)
Lemma balance_after_character_level_update_witness :
  ∃ response db',
    update_character_level studio_db "p1" "c1" (-2) = Returns (response, db')
    ∧ LevelResponse.level response = -2
    ∧ ∃ b',
        get_balance_comparison db' "p1" "c1" "e1" = Returns b'
        ∧ Comparison.character_level (BalanceResponse.comparison b') = 1.
Proof.
  eexists _, _. split; [vm_compute; reflexivity|]. split; [reflexivity|].
  pose proof (balance_after_character_level_update studio_db _ "p1" "c1" (-2)
                _ eq_refl "e1") as H.
  cbn in H. destruct H as (b' & p & Hb' & _ & _ & _ & _ & Hlevel & _).
  exists b'. split; [exact Hb' | exact Hlevel].
Defined.

(** X11: a character created with a fresh id is the one a later balance
    comparison finds under that id; if an older character of the project
    already has the id, the comparison keeps returning the older one, the new
    character being appended behind it. *)
Theorem created_character_lookup
    (db db' : list Project.t) (new_id project_id : string)
    (character_data : CharacterCreate.t) (character : Character.t) :
  create_character db new_id project_id character_data
  = Returns (character, db') →
  ∃ project,
    find_one db project_id = Some project
    ∧ ∀ enemy_id b,
        get_balance_comparison db' project_id new_id enemy_id = Returns b →
        BalanceResponse.character b
        = match next_character new_id (Project.characters project) with
          | Some older => older
          | None => character
          end.
Proof.
  intros H. apply create_character_inv in H as (p & Hfind & _ & Hc & ->).
  exists p. split; [done|]. intros enemy_id b.
  unfold get_balance_comparison.
  rewrite (find_one_replace_one _ _ _ _ Hfind)
    by exact (find_one_id _ _ _ Hfind).
  cbn [Project.characters Project.enemies Project.set_characters].
  rewrite next_character_app.
  destruct (next_character new_id (Project.characters p)) as [older|].
  - destruct (next_enemy _ _); [|discriminate]. by intros [= <-].
  - cbn [next_character]. rewrite decide_True by (by rewrite Hc).
    destruct (next_enemy _ _); [|discriminate]. by intros [= <-].
Qed.

(** X11, at the sample store: a second character, created with the fresh id
    "c2" and compared with the orc. *)
Lemma created_character_lookup_witness :
  ∃ character db' b,
    create_character studio_db "c2" "p1" (gandalf_data 3)
    = Returns (character, db')
    ∧ get_balance_comparison db' "p1" "c2" "e1" = Returns b
    ∧ BalanceResponse.character b = character.
Proof.
  eexists _, _, _. split; [vm_compute; reflexivity|].
  split; [vm_compute; reflexivity|].
  destruct (created_character_lookup studio_db _ "c2" "p1" (gandalf_data 3)
              _ eq_refl) as (p & Hfind & Hb).
  injection Hfind as <-.
  exact (Hb "e1" _ eq_refl).
Defined.

(** ** Projects and their listing *)

(** X12: [create_project] always succeeds and returns a project with the
    drawn id, the requested name and description, no characters and no
    enemies.  Afterwards [get_project] answers for an id that was already in
    the store what it answered before, so a project created under such an id
    is shadowed by the older one; for the new id, when it was not in the
    store, it returns a project with that id and the name, description,
    attribute list, stat definitions, feature flags and empty character and
    enemy lists of the returned one (the creation time is not compared); and
    it answers 404 for any other id. *)
Theorem create_project_then_get_project
    (db : list Project.t) (new_id : string) (now : Z)
    (project_data : ProjectCreate.t) (project_id : string) :
  ∃ project db',
    create_project db new_id now project_data = Returns (project, db')
    ∧ Project.id project = new_id
    ∧ Project.name project = ProjectCreate.name project_data
    ∧ Project.description project = ProjectCreate.description project_data
    ∧ Project.characters project = []
    ∧ Project.enemies project = []
    ∧ match find_one db project_id with
      | Some older => get_project db' project_id = Returns older
      | None =>
          if decide (project_id = new_id) then
            ∃ stored,
              get_project db' project_id = Returns stored
              ∧ Project.id stored = new_id
              ∧ Project.name stored = ProjectCreate.name project_data
              ∧ Project.description stored
                = ProjectCreate.description project_data
              ∧ Project.attributes stored = Project.attributes project
              ∧ Project.stat_definitions stored
                = Project.stat_definitions project
              ∧ Project.characters stored = []
              ∧ Project.enemies stored = []
              ∧ Project.features_enabled stored
                = Project.features_enabled project
          else get_project db' project_id = project_not_found
      end.
Proof.
  eexists _, _. split; [reflexivity|]. split_and!; try reflexivity.
  unfold get_project, insert_one. rewrite find_one_app.
  destruct (find_one db project_id) as [older|]; [done|]. cbn.
  destruct (decide (project_id = new_id)) as [->|Hne].
  - rewrite decide_True by done. eexists. by split_and!.
  - by rewrite decide_False.
Qed.

(** ** Listing the stat definitions *)

(** X14: after a successful [create_stat_definition], [get_stat_definitions]
    of the project returns the former list with the new definition appended
    at the end, also when a definition of that name was already present: names
    are not required to be unique and nothing is replaced. *)
Theorem created_stat_definition_is_listed
    (db db' : list Project.t) (project_id : string)
    (stat_data : StatDefinitionCreate.t) (stat_def : StatDefinition.t) :
  create_stat_definition db project_id stat_data = Returns (stat_def, db') →
  ∃ stat_definitions,
    get_stat_definitions db project_id = Returns stat_definitions
    ∧ get_stat_definitions db' project_id
      = Returns (stat_definitions ++ [stat_def])
    ∧ StatDefinition.name stat_def = StatDefinitionCreate.name stat_data
    ∧ StatDefinition.base_value stat_def
      = StatDefinitionCreate.base_value stat_data
    ∧ StatDefinition.modifiers stat_def
      = StatDefinitionCreate.modifiers stat_data
    ∧ StatDefinition.per_level_bonus stat_def
      = StatDefinitionCreate.per_level_bonus stat_data.
Proof.
  intros H. apply create_stat_definition_inv in H
    as (p & characters' & Hfind & -> & _ & ->).
  exists (Project.stat_definitions p). unfold get_stat_definitions.
  rewrite (find_one_replace_one _ _ _ _ Hfind)
    by exact (find_one_id _ _ _ Hfind).
  by rewrite Hfind.
Qed.

(** X14, at the sample store: a second "mana" definition is appended to the
    four seeded ones. *)
Lemma created_stat_definition_is_listed_witness :
  ∃ stat_def db',
    create_stat_definition studio_db "p1"
      (StatDefinitionCreate.mk "mana" (of_Z 7) [] (of_Z 0))
    = Returns (stat_def, db')
    ∧ get_stat_definitions db' "p1" = Returns (default_stats ++ [stat_def]).
Proof.
  eexists _, _. split; [vm_compute; reflexivity|].
  destruct (created_stat_definition_is_listed studio_db _ "p1"
              (StatDefinitionCreate.mk "mana" (of_Z 7) [] (of_Z 0)) _ eq_refl)
    as (defs & Hbefore & Hafter & _).
  injection Hbefore as <-. exact Hafter.
Defined.

Lemma definition_names_app l1 l2 :
  definition_names (l1 ++ l2) = definition_names l1 ∪ definition_names l2.
Proof. unfold definition_names. rewrite fmap_app. apply list_to_set_app_L. Qed.

Lemma definition_names_cons d l :
  definition_names (d :: l) = {[StatDefinition.name d]} ∪ definition_names l.
Proof. reflexivity. Qed.

Lemma definition_names_Forall name l :
  Forall (λ d, StatDefinition.name d ≠ name) l → name ∉ definition_names l.
Proof.
  unfold definition_names. rewrite elem_of_list_to_set, list_elem_of_fmap.
  intros H (d & -> & Hd). rewrite Forall_forall in H. by apply (H d).
Qed.

(** X15: a successful [update_stat_definition] overwrites the first definition
    named [stat_name], in place, and no other: the list keeps its length and
    every other position.  Afterwards each character of the project has
    exactly the names of the new list as keys of [calculated_stats]; so when
    the replacement carries another name, the key [stat_name] remains only if
    a later definition is also named [stat_name]. *)
Theorem update_stat_definition_replaces_first
    (db db' : list Project.t) (project_id stat_name message : string)
    (stat_data : StatDefinitionCreate.t) :
  update_stat_definition db project_id stat_name stat_data
  = Returns (message, db') →
  ∃ before old after project',
    get_stat_definitions db project_id = Returns (before ++ old :: after)
    ∧ Forall (λ d, StatDefinition.name d ≠ stat_name) before
    ∧ StatDefinition.name old = stat_name
    ∧ get_stat_definitions db' project_id
      = Returns (before ++ stat_definition_of stat_data :: after)
    ∧ find_one db' project_id = Some project'
    ∧ Forall
        (λ c, dom (Character.calculated_stats c)
              = definition_names
                  (before ++ stat_definition_of stat_data :: after))
        (Project.characters project')
    ∧ (StatDefinitionCreate.name stat_data ≠ stat_name →
       Forall
         (λ c, stat_name ∈ dom (Character.calculated_stats c)
               ↔ stat_name ∈ definition_names after)
         (Project.characters project')).
Proof.
  intros H. apply update_stat_definition_inv in H
    as (p & before & old & after & characters' & Hfind & Hdefs & Hbefore
        & Hold & Hrec & ->).
  pose proof (find_one_id _ _ _ Hfind) as Hp.
  exists before, old, after. eexists.
  unfold get_stat_definitions.
  rewrite (find_one_replace_one _ _ _ _ Hfind) by done.
  rewrite Hfind, Hdefs. split_and!; try done.
  - cbn. apply recalculate_all_Returns, recalculated_current in Hrec.
    eapply Forall_impl; [exact Hrec|]. intros c Hc. cbn in Hc.
    by rewrite (calculate_loop_dom _ _ _ _ Hc), dom_empty_L,
      (left_id_L ∅ (∪)).
  - intros Hname. cbn.
    apply recalculate_all_Returns, recalculated_current in Hrec.
    eapply Forall_impl; [exact Hrec|]. intros c Hc. cbn in Hc.
    rewrite (calculate_loop_dom _ _ _ _ Hc), dom_empty_L,
      (left_id_L ∅ (∪)), definition_names_app, definition_names_cons.
    apply definition_names_Forall in Hbefore.
    assert (StatDefinition.name (stat_definition_of stat_data) ≠ stat_name)
      by done.
    set_solver.
Qed.

(** X15, at the sample store: "mana" is replaced by a definition named
    "fortune". *)
Lemma update_stat_definition_replaces_first_witness :
  ∃ message db' project',
    update_stat_definition studio_db "p1" "mana" fortune_data
    = Returns (message, db')
    ∧ find_one db' "p1" = Some project'
    ∧ length (Project.stat_definitions project') = 4%nat
    ∧ ∃ before old after,
        get_stat_definitions db' "p1"
        = Returns (before ++ stat_definition_of fortune_data :: after)
        ∧ StatDefinition.name old = "mana".
Proof.
  eexists _, _, _. split; [vm_compute; reflexivity|].
  split; [vm_compute; reflexivity|]. split; [reflexivity|].
  destruct (update_stat_definition_replaces_first studio_db _ "p1" "mana" _
              fortune_data eq_refl)
    as (before & old & after & p' & _ & _ & Hold & Hafter & _).
  exists before, old, after. split; [exact Hafter | exact Hold].
Defined.

(** ** The calculator and the order of the definitions *)

Lemma calculate_character_stats_lookup character stat_definitions calculated :
  calculate_character_stats character stat_definitions = Returns calculated →
  ∀ name,
    Returns <$> calculated !! name
    = stat_formula character <$> last_definition name stat_definitions.
Proof.
  intros H name. rewrite (calculate_loop_Returns _ _ _ _ H name).
  destruct (last_definition name stat_definitions); [done|].
  by rewrite lookup_empty.
Qed.

Lemma calculate_character_stats_overflow character stat_definitions :
  float_of_int (Character.level character - 1) = None →
  stat_definitions ≠ [] →
  calculate_character_stats character stat_definitions = Raises OverflowError.
Proof.
  intros Hlevel Hne. destruct stat_definitions as [|d ds]; [done|].
  unfold calculate_character_stats. cbn [calculate_loop].
  unfold stat_total, int_mul_float. by rewrite Hlevel.
Qed.

Lemma last_definition_NoDup stat_definitions d :
  NoDup (StatDefinition.name <$> stat_definitions) →
  d ∈ stat_definitions →
  last_definition (StatDefinition.name d) stat_definitions = Some d.
Proof.
  induction stat_definitions as [|d0 ds IH]; intros Hnodup Hd.
  - by apply not_elem_of_nil in Hd.
  - cbn in Hnodup. apply NoDup_cons in Hnodup as [Hd0 Hnodup].
    rewrite last_definition_cons.
    apply elem_of_cons in Hd as [->|Hd].
    + assert (last_definition (StatDefinition.name d0) ds = None) as ->.
      { apply last_definition_None. unfold definition_names.
        by rewrite elem_of_list_to_set. }
      by rewrite decide_True.
    + by rewrite (IH Hnodup Hd).
Qed.

Lemma last_definition_Permutation name l1 l2 :
  NoDup (StatDefinition.name <$> l1) →
  l1 ≡ₚ l2 →
  last_definition name l1 = last_definition name l2.
Proof.
  intros Hnodup Hperm.
  assert (NoDup (StatDefinition.name <$> l2)) as Hnodup2
    by by rewrite <- Hperm.
  destruct (last_definition name l1) as [d|] eqn:E1.
  - apply last_definition_Some in E1 as [Hd <-]. symmetry.
    apply last_definition_NoDup; [done|]. by rewrite <- Hperm.
  - symmetry. apply last_definition_None. apply last_definition_None in E1.
    unfold definition_names in *. rewrite elem_of_list_to_set in *.
    by rewrite <- Hperm.
Qed.

(** X16: when the definitions have pairwise distinct names, their order does
    not matter to [calculate_character_stats]: on any rearrangement of the
    list it returns the same mapping, or raises the same error. *)
Theorem calculate_character_stats_order_irrelevant
    (character : Character.t) (l1 l2 : list StatDefinition.t) :
  NoDup (StatDefinition.name <$> l1) →
  l1 ≡ₚ l2 →
  calculate_character_stats character l1
  = calculate_character_stats character l2.
Proof.
  intros Hnodup Hperm.
  destruct (float_of_int (Character.level character - 1)) as [y|] eqn:Hy.
  - destruct (calculate_character_stats_total character l1 y Hy) as [m1 H1].
    destruct (calculate_character_stats_total character l2 y Hy) as [m2 H2].
    rewrite H1, H2. f_equal. apply map_eq. intros name.
    pose proof (calculate_character_stats_lookup _ _ _ H1 name) as E1.
    pose proof (calculate_character_stats_lookup _ _ _ H2 name) as E2.
    rewrite (last_definition_Permutation name l1 l2 Hnodup Hperm) in E1.
    rewrite <- E2 in E1.
    destruct (m1 !! name), (m2 !! name); cbn in E1; congruence.
  - destruct l1 as [|d ds].
    + by apply Permutation_nil_l in Hperm as ->.
    + rewrite !calculate_character_stats_overflow; try done.
      intros ->. by apply Permutation_nil_r in Hperm.
Qed.

(** X16, at the sample data: gandalf against the seeded definitions and
    against their reversal. *)
Lemma calculate_character_stats_order_irrelevant_witness :
  calculate_character_stats gandalf default_stats
  = calculate_character_stats gandalf (reverse default_stats).
Proof.
  apply (calculate_character_stats_order_irrelevant gandalf default_stats
           (reverse default_stats)).
  - cbn.
    repeat (apply NoDup_cons_2;
            [rewrite ?not_elem_of_cons; repeat split; try discriminate;
             apply not_elem_of_nil|]).
    apply NoDup_nil_2.
  - symmetry. apply reverse_Permutation.
Defined.

Lemma last_definition_snoc name stat_definitions d :
  last_definition name (stat_definitions ++ [d])
  = if decide (StatDefinition.name d = name) then Some d
    else last_definition name stat_definitions.
Proof.
  unfold last_definition. rewrite filter_app, filter_cons, filter_nil.
  destruct (decide (StatDefinition.name d = name)).
  - apply last_snoc.
  - by rewrite app_nil_r.
Qed.

(** X17: appending a stat definition changes one entry of each character.
    In a project whose characters' stats are current, each character's
    [calculated_stats] after [create_stat_definition] has the formula of the
    new definition under its name (replacing the value of an older definition
    of that name, if any) and the former value, or absence, under every other
    name. *)
Theorem appended_definition_changes_one_entry
    (db db' : list Project.t) (project_id : string) (project : Project.t)
    (stat_data : StatDefinitionCreate.t) (stat_def : StatDefinition.t) :
  find_one db project_id = Some project →
  stats_current project →
  create_stat_definition db project_id stat_data = Returns (stat_def, db') →
  ∃ project',
    find_one db' project_id = Some project'
    ∧ Forall2
        (λ c c',
           Returns <$> Character.calculated_stats c'
                         !! StatDefinition.name stat_def
           = Some (stat_formula c stat_def)
           ∧ ∀ name,
               name ≠ StatDefinition.name stat_def →
               Character.calculated_stats c' !! name
               = Character.calculated_stats c !! name)
        (Project.characters project) (Project.characters project').
Proof.
  intros Hfind Hcurrent H. apply create_stat_definition_inv in H
    as (p & characters' & Hfind' & -> & Hrec & ->).
  rewrite Hfind in Hfind'. injection Hfind' as <-.
  eexists. split.
  { apply (find_one_replace_one _ _ _ _ Hfind), (find_one_id _ _ _ Hfind). }
  cbn. apply recalculate_all_Returns in Hrec.
  unfold stats_current in Hcurrent. revert Hcurrent.
  induction Hrec as [|c c' cs cs' (Hcalc & _) _ IH]; intros Hcurrent;
    [constructor|].
  apply Forall_cons in Hcurrent as [Hc Hcs]. constructor; [|by apply IH].
  split.
  - rewrite (calculate_character_stats_lookup _ _ _ Hcalc),
      last_definition_snoc. by rewrite decide_True.
  - intros name Hname.
    pose proof (calculate_character_stats_lookup _ _ _ Hcalc name) as E'.
    pose proof (calculate_character_stats_lookup _ _ _ Hc name) as E.
    rewrite last_definition_snoc, decide_False in E' by done.
    rewrite <- E in E'.
    destruct (Character.calculated_stats c' !! name),
      (Character.calculated_stats c !! name); cbn in E'; congruence.
Qed.

(** X17, at the sample store: the "fortune" definition is appended; gandalf
    gains the entry 15.0 and keeps his health of 170.0. *)
Lemma appended_definition_changes_one_entry_witness :
  find_one studio_db "p1" = Some studio_project
  ∧ stats_current studio_project
  ∧ ∃ stat_def db' project',
      create_stat_definition studio_db "p1" fortune_data
      = Returns (stat_def, db')
      ∧ find_one db' "p1" = Some project'
      ∧ Forall2
          (λ c c',
             Returns <$> Character.calculated_stats c'
                           !! StatDefinition.name stat_def
             = Some (stat_formula c stat_def)
             ∧ ∀ name,
                 name ≠ StatDefinition.name stat_def →
                 Character.calculated_stats c' !! name
                 = Character.calculated_stats c !! name)
          (Project.characters studio_project) (Project.characters project').
Proof.
  assert (stats_current studio_project) as Hcurrent.
  { repeat constructor. }
  split; [reflexivity|]. split; [exact Hcurrent|].
  eexists _, _.
  destruct (appended_definition_changes_one_entry studio_db _ "p1"
              studio_project fortune_data _ eq_refl Hcurrent eq_refl)
    as (p' & Hfind' & Hall).
  exists p'. split; [reflexivity|]. split; [exact Hfind' | exact Hall].
Defined.

(** ** Levels a user would ask for *)

(** X18: on an existing project no route raises [OverflowError] for a level
    below [2^53]: creating a character with such a level returns, and so does
    updating the level of an existing character or enemy to any [N ≤ 2^53],
    negative values included. *)
Theorem ordinary_levels_never_overflow
    (db : list Project.t) (project_id : string) (project : Project.t) :
  find_one db project_id = Some project →
  (∀ new_id character_data,
     - 2 ^ 53 < CharacterCreate.level character_data - 1 < 2 ^ 53 →
     ∃ character db',
       create_character db new_id project_id character_data
       = Returns (character, db'))
  ∧ (∀ character_id N,
       N ≤ 2 ^ 53 →
       is_Some (next_character character_id (Project.characters project)) →
       ∃ response db',
         update_character_level db project_id character_id N
         = Returns (response, db'))
  ∧ (∀ enemy_id N,
       N ≤ 2 ^ 53 →
       is_Some (next_enemy enemy_id (Project.enemies project)) →
       ∃ response db',
         update_enemy_level db project_id enemy_id N
         = Returns (response, db')).
Proof.
  intros Hfind. split_and!.
  - intros new_id data [y Hy]%float_of_int_small.
    unfold create_character. rewrite Hfind.
    edestruct calculate_character_stats_total as [stats ->]; [exact Hy|].
    cbn. eauto.
  - intros cid N HN [c Hc].
    apply next_character_Some in Hc as (before & after & Hchars & Hb & Hid).
    unfold update_character_level.
    rewrite Hfind, Hchars, (level_up_character_found _ _ _ _ _ _ Hb Hid).
    destruct (float_of_int_small (Z.max 1 N - 1)) as [y Hy]; [lia|].
    edestruct calculate_character_stats_total as [stats ->]; [exact Hy|].
    cbn. eauto.
  - intros eid N HN [e He].
    apply next_enemy_Some in He as (before & after & Henemies & Hb & Hid).
    unfold update_enemy_level.
    rewrite Hfind, Henemies, (level_up_enemy_found _ _ _ _ _ Hb Hid).
    unfold scale_enemy. cbn [Enemy.level Enemy.set_level].
    destruct (level_multiplier_returns (Z.max 1 N)) as [m ->]; [lia|].
    cbn. eauto.
Qed.

(** X18, at the sample store: the orc updated to level [2^53]. *)
Lemma ordinary_levels_never_overflow_witness :
  find_one studio_db "p1" = Some studio_project
  ∧ ∃ response db',
      update_enemy_level studio_db "p1" "e1" (2 ^ 53) = Returns (response, db').
Proof.
  split; [reflexivity|].
  apply (proj2 (proj2 (ordinary_levels_never_overflow studio_db "p1"
                         studio_project eq_refl))).
  - lia.
  - by eexists.
Defined.

(** ** Nothing is ever removed *)

Lemma execute_find_other db r other :
  other ≠ target r →
  find_one (execute db r) other = find_one db other.
Proof.
  intros Hother.
  destruct r as [new_id now data| | | | | |] eqn:Er;
    [|rewrite <- Er in *; destruct (execute_replace db r) as [H _];
      [by subst r|]; by apply H ..].
  cbn in *. unfold insert_one. rewrite find_one_app.
  destruct (find_one db other); [done|]. cbn. by rewrite decide_False.
Qed.

(** X19: no writing request removes or reorders anything.  A project that can
    be looked up before a request can be looked up after it, whether the
    request succeeds or raises, with the same name, description, attribute
    list, feature flags and creation time; the ids of its characters and of
    its enemies before the request are a prefix of those after it, and it has
    at least as many stat definitions as before. *)
Theorem requests_never_remove
    (db : list Project.t) (r : request) (project_id : string)
    (project : Project.t) :
  find_one db project_id = Some project →
  ∃ project',
    find_one (execute db r) project_id = Some project'
    ∧ Project.name project' = Project.name project
    ∧ Project.description project' = Project.description project
    ∧ Project.attributes project' = Project.attributes project
    ∧ Project.features_enabled project' = Project.features_enabled project
    ∧ Project.created_at project' = Project.created_at project
    ∧ (Character.id <$> Project.characters project)
        `prefix_of` (Character.id <$> Project.characters project')
    ∧ (Enemy.id <$> Project.enemies project)
        `prefix_of` (Enemy.id <$> Project.enemies project')
    ∧ (length (Project.stat_definitions project)
       ≤ length (Project.stat_definitions project'))%nat.
Proof.
  intros Hfind.
  assert (∃ project',
            find_one db project_id = Some project'
            ∧ Project.name project' = Project.name project
            ∧ Project.description project' = Project.description project
            ∧ Project.attributes project' = Project.attributes project
            ∧ Project.features_enabled project'
              = Project.features_enabled project
            ∧ Project.created_at project' = Project.created_at project
            ∧ (Character.id <$> Project.characters project)
                `prefix_of` (Character.id <$> Project.characters project')
            ∧ (Enemy.id <$> Project.enemies project)
                `prefix_of` (Enemy.id <$> Project.enemies project')
            ∧ (length (Project.stat_definitions project)
               ≤ length (Project.stat_definitions project'))%nat) as Hsame
    by (exists project; by split_and!).
  destruct (decide (project_id = target r)) as [Htarget|Hother];
    [|by rewrite execute_find_other].
  pose proof (find_one_id _ _ _ Hfind) as Hid.
  destruct r as [new_id now data|new_id pid data|pid cid N|new_id pid data
                |pid eid N|pid data|pid stat_name data];
    cbn [execute target] in *; subst.
  - cbn. unfold insert_one. rewrite find_one_app.
    destruct Hsame as (p' & -> & Hp'). by exists p'.
  - destruct (create_character db new_id _ data) as [[c db']|e] eqn:E;
      [|exact Hsame]. cbn.
    apply create_character_inv in E as (p & Hfind' & _ & _ & ->).
    rewrite Hfind in Hfind'. injection Hfind' as <-.
    eexists. split; [by apply (find_one_replace_one _ _ _ _ Hfind)|].
    cbn. split_and!; try done. rewrite fmap_app. by apply prefix_app_r.
  - destruct (update_character_level db _ cid N) as [[resp db']|e] eqn:E;
      [|exact Hsame]. cbn.
    apply update_character_level_inv in E
      as (p & before & c & after & stats & Hfind' & Hchars & _ & _ & _ & _
          & ->).
    rewrite Hfind in Hfind'. injection Hfind' as <-.
    eexists. split; [by apply (find_one_replace_one _ _ _ _ Hfind)|].
    cbn. split_and!; try done. by rewrite Hchars, !fmap_app.
  - destruct (create_enemy db new_id _ data) as [[enemy db']|e] eqn:E;
      [|exact Hsame]. cbn.
    apply create_enemy_inv in E as (p & Hfind' & _ & ->).
    rewrite Hfind in Hfind'. injection Hfind' as <-.
    eexists. split; [by apply (find_one_replace_one _ _ _ _ Hfind)|].
    cbn. split_and!; try done. rewrite fmap_app. by apply prefix_app_r.
  - destruct (update_enemy_level db _ eid N) as [[resp db']|e] eqn:E;
      [|exact Hsame]. cbn.
    apply update_enemy_level_inv in E
      as (p & before & enemy & after & m & Hfind' & Henemies & _ & _ & _ & _
          & ->).
    rewrite Hfind in Hfind'. injection Hfind' as <-.
    eexists. split; [by apply (find_one_replace_one _ _ _ _ Hfind)|].
    cbn. split_and!; try done. by rewrite Henemies, !fmap_app.
  - destruct (create_stat_definition db _ data) as [[d db']|e] eqn:E;
      [|exact Hsame]. cbn.
    apply create_stat_definition_inv in E
      as (p & characters' & Hfind' & _ & Hrec & ->).
    rewrite Hfind in Hfind'. injection Hfind' as <-.
    eexists. split; [by apply (find_one_replace_one _ _ _ _ Hfind)|].
    apply recalculate_all_Returns in Hrec.
    cbn. split_and!; try done.
    + assert (Character.id <$> characters'
              = Character.id <$> Project.characters project) as ->; [|done].
      clear -Hrec.
      induction Hrec as [|c c' cs cs' (_ & _ & _ & Hc & _) _ IH]; [done|].
      cbn. by rewrite Hc, IH.
    + rewrite length_app. lia.
  - destruct (update_stat_definition db _ stat_name data)
      as [[msg db']|e] eqn:E; [|exact Hsame]. cbn.
    apply update_stat_definition_inv in E
      as (p & before & old & after & characters' & Hfind' & Hdefs & _ & _
          & Hrec & ->).
    rewrite Hfind in Hfind'. injection Hfind' as <-.
    eexists. split; [by apply (find_one_replace_one _ _ _ _ Hfind)|].
    apply recalculate_all_Returns in Hrec.
    cbn. split_and!; try done.
    + assert (Character.id <$> characters'
              = Character.id <$> Project.characters project) as ->; [|done].
      clear -Hrec.
      induction Hrec as [|c c' cs cs' (_ & _ & _ & Hc & _) _ IH]; [done|].
      cbn. by rewrite Hc, IH.
    + rewrite Hdefs, !length_app. cbn. lia.
Qed.

(** X19, at the sample store: a failing request (an unknown stat name) and a
    succeeding one leave the sample project in place. *)
Lemma requests_never_remove_witness :
  find_one studio_db "p1" = Some studio_project
  ∧ ∃ project',
      find_one
        (execute studio_db (CreateCharacter "c2" "p1" (gandalf_data 2))) "p1"
      = Some project'
      ∧ (Character.id <$> Project.characters studio_project)
          `prefix_of` (Character.id <$> Project.characters project').
Proof.
  split; [reflexivity|].
  destruct (requests_never_remove studio_db
              (CreateCharacter "c2" "p1" (gandalf_data 2)) "p1"
              studio_project eq_refl)
    as (p' & Hfind' & _ & _ & _ & _ & _ & Hchars & _).
  exists p'. split; [exact Hfind' | exact Hchars].
Defined.

(** ** How [update_stat_definition] fails *)

Lemma replace_stat_definition_none stat_name stat_def stat_definitions :
  Forall (λ d, StatDefinition.name d ≠ stat_name) stat_definitions →
  replace_stat_definition stat_name stat_def stat_definitions
  = (false, stat_definitions).
Proof.
  induction 1 as [|d ds Hd _ IH]; [done|]. cbn.
  rewrite decide_False by done. by rewrite IH.
Qed.

Lemma recalculate_all_overflow stat_definitions characters e :
  recalculate_all stat_definitions characters = Raises e → e = OverflowError.
Proof.
  intros H. apply recalculate_all_Raises in H as (c & _ & H).
  apply calculate_loop_Raises in H as (d & _ & H).
  by apply stat_formula_Raises in H as [-> _].
Qed.

(** X20: [update_stat_definition] answers 404 "Project not found" exactly when
    no project has the id, and 404 "Stat definition not found" exactly when
    the project exists and none of its definitions is named [stat_name]
    (the name in the path decides, not the name in the body); its only other
    failure is an [OverflowError] from recalculating a character. *)
Theorem update_stat_definition_errors
    (db : list Project.t) (project_id stat_name : string)
    (stat_data : StatDefinitionCreate.t) :
  (update_stat_definition db project_id stat_name stat_data
   = project_not_found
   ↔ find_one db project_id = None)
  ∧ (update_stat_definition db project_id stat_name stat_data
     = Raises (HTTPException 404 "Stat definition not found")
     ↔ ∃ project,
         find_one db project_id = Some project
         ∧ Forall (λ d, StatDefinition.name d ≠ stat_name)
             (Project.stat_definitions project))
  ∧ (∀ e,
       update_stat_definition db project_id stat_name stat_data = Raises e →
       e = HTTPException 404 "Project not found"
       ∨ e = HTTPException 404 "Stat definition not found"
       ∨ e = OverflowError).
Proof.
  unfold update_stat_definition, project_not_found.
  destruct (find_one db project_id) as [project|];
    [|split; [done|]; split;
      [split; [discriminate | by intros (? & [=] & _)]
      |intros e [= <-]; auto]].
  destruct (replace_stat_definition _ _ _) as [[|] ds'] eqn:Hreplace;
    cbn -[recalculate_all].
  - destruct (recalculate_all _ _) as [characters'|e'] eqn:Hrec; cbn.
    + split; [split; discriminate|]. split; [|discriminate].
      split; [discriminate|]. intros (p & [= <-] & Hnone).
      by rewrite (replace_stat_definition_none _ _ _ Hnone) in Hreplace.
    + apply recalculate_all_overflow in Hrec as ->.
      split; [split; discriminate|]. split; [|intros e [= <-]; auto].
      split; [discriminate|]. intros (p & [= <-] & Hnone).
      by rewrite (replace_stat_definition_none _ _ _ Hnone) in Hreplace.
  - apply replace_stat_definition_missing in Hreplace.
    split; [split; discriminate|].
    split; [split; [intros _; by exists project | done]|].
    intros e [= <-]. auto.
Qed.
